(** * react-icons: the build script [scripts/build.js]

    A shallow embedding of the generator that turns SVG icon sets into
    modules, and the properties of it that the specification states.

    The script is plain sequential JavaScript over a handful of external
    packages ([cheerio], [camelcase], [glob-promise], Node's [fs] and
    [path]).  Those are not part of the repository: they enter the
    development as the fields of two interfaces, [NodeEnv] (pure helpers)
    and [FileSystem] (effects), and every general theorem holds for all
    their implementations.  Closed examples run the script on reference
    implementations given at the end of the definitions. *)

From Stdlib Require Import Ascii.
From stdpp Require Import gmap strings list.

#[local] Set Warnings "-register-all".

(** ** JavaScript values used by the script *)

(** A plain object with string values, keys in insertion order.  (Keys that
    look like array indices, which JavaScript enumerates first, do not occur
    as attribute names and are not treated specially.) *)
Definition JsObject : Type := list (string * string).

(** [Object.keys(o)] *)
Definition object_keys (o : JsObject) : list string := o.*1.

(** [o[k]], [None] standing for [undefined] *)
Fixpoint obj_get (o : JsObject) (k : string) : option string :=
  match o with
  | [] => None
  | (k', v) :: o' => if decide (k' = k) then Some v else obj_get o' k
  end.

(** [o[k] = v]: an existing key keeps its place, a new one goes last *)
Fixpoint obj_set (o : JsObject) (k v : string) : JsObject :=
  match o with
  | [] => [(k, v)]
  | (k', v') :: o' =>
      if decide (k' = k) then (k, v) :: o' else (k', v') :: obj_set o' k v
  end.

(** [xs.includes(x)] on an array of strings *)
Definition includes (xs : list string) (x : string) : bool :=
  bool_decide (x ∈ xs).

(** Truthiness of a string: every string but the empty one *)
Definition truthy (s : string) : bool :=
  match s with EmptyString => false | String _ _ => true end.

(** The line feed of the script's ["\n"] *)
Definition LF : string := String (ascii_of_nat 10) EmptyString.

(** The double quote inside the script's template literals *)
Definition DQ : string := String (ascii_of_nat 34) EmptyString.

(** ** The DOM handed over by cheerio

    The script reads three properties of a DOM node and nothing else:
    [e.tagName], [e.attribs] and [e.children].  A node is therefore the
    triple of these, each possibly missing: an element has all three, a
    text or comment node none of them. *)
Inductive node : Type :=
  mkNode { tagName : option string;
           attribs : option JsObject;
           children : option (list node) }.

Definition Element (name : string) (a : JsObject) (c : list node) : node :=
  mkNode (Some name) (Some a) (Some c).
(** a text or comment node *)
Definition Text : node := mkNode None None None.

(** ** The emitted tree: [{ tag, attr, child }]

    [attr] is missing when the node had no [attribs]; [child] is missing
    ([undefined], dropped by [JSON.stringify]) or an array. *)
Inductive IconTree : Type :=
  mkIconTree { tag : string;
               attr : option JsObject;
               child : option (list IconTree) }.

(** ** Icon set descriptors ([src/icons], supplied from outside) *)
Record IconSetDescriptor : Type := mkIcon {
  id : string;
  name : string;
  files : string;
  formatter : option (string → string);
  projectUrl : string;
  license : string;
  licenseUrl : string
}.

(** ** Errors and results of asynchronous calls *)
Record Error : Type := mkError { code : string; message : string }.

Inductive result (A : Type) : Type :=
| Ok (a : A)
| Err (e : Error).
Arguments Ok {A} a.
Arguments Err {A} e.

(** What [main] leaves on the console: ["done"] on the output stream, with
    the state the run ended in, or the caught error on the error stream. *)
Inductive Outcome (Fs : Type) : Type :=
| Done (fs : Fs)
| Failed (e : Error).
Arguments Done {Fs} fs.
Arguments Failed {Fs} e.

(** ** The external packages *)

(** Pure helpers from [camelcase], [cheerio], [path] and the JSON built-in. *)
Class NodeEnv : Type := {
  (** [camelcase(input, { pascalCase })] *)
  camelcase : string → bool → string;
  (** [cheerio.load(svg, { xmlMode: true })]: the top-level nodes *)
  cheerio_load : string → list node;
  (** [JSON.stringify(tree)] *)
  JSON_stringify : IconTree → string;
  (** [JSON.stringify(objects, null, 2)] *)
  JSON_stringify_indent : list JsObject → string;
  (** [path.resolve(...segments)] *)
  path_resolve : list string → string;
  (** [path.basename(p, ext)] and [path.extname(p)] *)
  path_basename : string → string → string;
  path_extname : string → string;
  (** [__dirname] *)
  dirname__ : string
}.

(** Node's [fs] (promisified) and [glob-promise] over a file-system state.
    A call either fulfils, with a new state or a value, or rejects with an
    error and leaves the state as it was. *)
Class FileSystem (Fs : Type) : Type := {
  fs_mkdir : string → Fs → result Fs;
  fs_writeFile : string → string → Fs → result Fs;
  fs_appendFile : string → string → Fs → result Fs;
  fs_copyFile : string → string → Fs → result Fs;
  fs_readFile : string → Fs → result string;
  fs_glob : string → Fs → result (list string)
}.

(** ** A state and error monad for [async] functions *)
Definition Async (Fs A : Type) : Type := Fs → result (A * Fs).

Definition ret {Fs A} (a : A) : Async Fs A := λ fs, Ok (a, fs).

Definition bind {Fs A B} (m : Async Fs A) (k : A → Async Fs B) : Async Fs B :=
  λ fs, match m fs with
        | Ok (a, fs') => k a fs'
        | Err e => Err e
        end.

Notation "'const' x ':=' 'await' m ; k" := (bind m (λ x, k))
  (at level 100, x name, m at next level, right associativity,
   format "'const'  x  :=  'await'  m ;  '//' k").
Notation "'await' m ; k" := (bind m (λ _, k))
  (at level 100, m at next level, right associativity,
   format "'await'  m ;  '//' k").

(** Lifting the primitives *)
Definition effect {Fs} (op : Fs → result Fs) : Async Fs () :=
  λ fs, match op fs with Ok fs' => Ok ((), fs') | Err e => Err e end.
Definition query {Fs A} (op : Fs → result A) : Async Fs A :=
  λ fs, match op fs with Ok a => Ok (a, fs) | Err e => Err e end.

(** [p.catch(handler)] for a handler that returns nothing or rethrows:
    [handler err] is [None] when it returns and [Some err'] when it throws. *)
Definition catch {Fs} (m : Async Fs ()) (handler : Error → option Error)
  : Async Fs () :=
  λ fs, match m fs with
        | Ok r => Ok r
        | Err e => match handler e with
                   | None => Ok ((), fs)
                   | Some e' => Err e'
                   end
        end.

(** [for (const x of xs) { await body(x) }] *)
Fixpoint for_of {Fs A} (xs : list A) (body : A → Async Fs ()) : Async Fs () :=
  match xs with
  | [] => ret ()
  | x :: xs' => await body x; for_of xs' body
  end.

(** * The script *)

(** ** [convertIconData]: from SVG text to the emitted tree *)
Section Convert.
Context `{NodeEnv}.

(** The names dropped from an element called [tagName]:
    [["class", ...(tagName === "svg" ? ["xmlns", "width", "height"] : [])]] *)
Definition dropped (tagName : string) : list string :=
  "class" :: (if decide (tagName = "svg") then ["xmlns"; "width"; "height"] else []).

(** The callback of [reduce]: [obj[camelcase(name)] = attribs[name]].
    [name] ranges over [Object.keys(attribs)], so [attribs[name]] is
    defined. *)
Definition reducer (attribs : JsObject) (obj : JsObject) (name : string)
  : JsObject :=
  let newName := camelcase name false in
  match obj_get attribs name with
  | Some v => obj_set obj newName v
  | None => obj
  end.

(** [attrConverter]: filter the attribute names, then rebuild the object
    under camel-cased keys; [attribs && ...] passes a missing [attribs]
    through. *)
Definition attrConverter (attribs : option JsObject) (tagName : string)
  : option JsObject :=
  match attribs with
  | None => None
  | Some attribs =>
      Some (foldl (reducer attribs) []
              (filter (λ name, name ∉ dropped tagName) (object_keys attribs)))
  end.

(** The callback of [.filter]: [e.tagName && !["style"].includes(e.tagName)] *)
Definition keeps (e : node) : bool :=
  match tagName e with
  | Some n => truthy n && negb (includes ["style"] n)
  | None => false
  end.

(** The callbacks of [.filter] and [.map] on one node: [None] when the
    node is filtered out, the mapped object otherwise.  The recursion of
    [elementToTree] on [cheerio(e.children)] is the inner loop. *)
Fixpoint nodeToTree (e : node) : option IconTree :=
  match e with
  | mkNode tn at_ ch =>
      match tn with
      | Some n =>
          if truthy n && negb (includes ["style"] n) then
            Some {| tag := n;
                    attr := attrConverter at_ n;
                    child :=
                      match ch with
                      | Some (c :: cs) =>
                          Some ((fix elementToTree (element : list node) :=
                                   match element with
                                   | [] => []
                                   | e' :: rest =>
                                       match nodeToTree e' with
                                       | Some t => t :: elementToTree rest
                                       | None => elementToTree rest
                                       end
                                   end) (c :: cs))
                      | _ => None
                      end |}
          else None
      | None => None
      end
  end.

(** [elementToTree]: [element.filter(...).map(...).get()] *)
Definition elementToTree (element : list node) : list IconTree :=
  omap nodeToTree element.

(** cheerio's [$("svg")]: every node called [svg], in document order *)
Fixpoint select_node (sel : string) (e : node) : list node :=
  (if decide (tagName e = Some sel) then [e] else []) ++
  match e with
  | mkNode _ _ (Some ch) =>
      (fix select_list (l : list node) :=
         match l with
         | [] => []
         | e' :: rest => select_node sel e' ++ select_list rest
         end) ch
  | _ => []
  end.

Definition select (sel : string) (dom : list node) : list node :=
  flat_map (select_node sel) dom.

(** [convertIconData]: [tree[0]] is [undefined] when no [svg] was found *)
Definition convertIconData (svg : string) : option IconTree :=
  let svg' := select "svg" (cheerio_load svg) in
  let tree := elementToTree svg' in
  head tree.

(** [generateIconsEntry(iconId, type = "module")]: an omitted [type]
    ([None]) takes the default. *)
Definition generateIconsEntry (iconId : string) (type : option string)
  : option string :=
  let type := default "module" type in
  if decide (type = "module") then
    Some ("export * from './" +:+ iconId +:+ "';" +:+ LF)
  else if decide (type = "dts") then
    Some ("export * from './" +:+ iconId +:+ "';" +:+ LF)
  else None.

End Convert.

(** ** The two revisions under [src/]

    [src/packages/react-icons/scripts/build.js] and [src/unnamed/part_000]
    are two revisions of the same script.  Parsing, naming and the loop over
    the files are the same text in both; they differ in the directories they
    write to, in the text of an emitted row and in [dirInit]. *)
Inductive revision : Type := build_js | part_000.

Section Script.
Context `{NodeEnv} {Fs : Type} `{!FileSystem Fs}.
(** [const { icons } = require("../src/icons")] *)
Variable icons : list IconSetDescriptor.
Variable rev : revision.

Definition rootDir : string := path_resolve [dirname__; "../"].
Definition DIST : string :=
  path_resolve [rootDir; match rev with build_js => "lib" | part_000 => "." end].
(** [LIB] exists in [part_000] only *)
Definition LIB : string := path_resolve [rootDir; "./lib"].

Definition mkdir (p : string) : Async Fs () := effect (fs_mkdir p).
Definition writeFile (p str : string) : Async Fs () := effect (fs_writeFile p str).
Definition appendFile (p str : string) : Async Fs () := effect (fs_appendFile p str).
Definition copyFile (src dst : string) : Async Fs () := effect (fs_copyFile src dst).
Definition readFile (p : string) : Async Fs string := query (fs_readFile p).

(** A promise that is started and never awaited: its rejection does not
    reach the caller. *)
Definition detached (m : Async Fs ()) : Async Fs () :=
  λ fs, match m fs with Ok r => Ok r | Err _ => Ok ((), fs) end.

(** A possibly [undefined] text handed to [fs] *)
Definition js_text (o : option string) : string := default "undefined" o.

Definition getIconFiles (icon : IconSetDescriptor) : Async Fs (list string) :=
  query (fs_glob (files icon)).

(** [${JSON.stringify(iconData)}]: [undefined] prints as such *)
Definition stringify_data (iconData : option IconTree) : string :=
  match iconData with
  | Some t => JSON_stringify t
  | None => "undefined"
  end.

(** [generateIconRow(icon, formattedName, iconData, type = "module")], its
    unused first parameter [icon] left out; an omitted [type] ([None]) takes
    the default, a [type] outside the three cases falls out of the
    [switch]. *)
Definition generateIconRow (formattedName : string)
    (iconData : option IconTree) (type : option string) : option string :=
  let type := default "module" type in
  if decide (type = "module") then
    Some match rev with
         | build_js =>
             "export const Data" +:+ formattedName +:+ " = " +:+
               stringify_data iconData +:+ ";" +:+ LF +:+
             "export const " +:+ formattedName +:+
               " = function (props) { return GenIcon(Data" +:+
               formattedName +:+ ")(props); };" +:+ LF
         | part_000 =>
             "export var " +:+ formattedName +:+ " = function (props) {" +:+ LF +:+
             "  return GenIcon(" +:+ stringify_data iconData +:+ ")(props);" +:+ LF +:+
             "};" +:+ LF
         end
  else if decide (type = "common") then
    Some match rev with
         | build_js =>
             "module.exports.Data" +:+ formattedName +:+ " = " +:+
               stringify_data iconData +:+ ";" +:+ LF +:+
             "module.exports." +:+ formattedName +:+
               " = function (props) { return GenIcon(module.exports.Data" +:+
               formattedName +:+ ")(props); };" +:+ LF
         | part_000 =>
             "module.exports." +:+ formattedName +:+ " = function (props) {" +:+ LF +:+
             "  return GenIcon(" +:+ stringify_data iconData +:+ ")(props);" +:+ LF +:+
             "};" +:+ LF
         end
  else if decide (type = "dts") then
    Some match rev with
         | build_js =>
             "export declare const Data" +:+ formattedName +:+ ": IconData;" +:+ LF +:+
             "export declare const " +:+ formattedName +:+ ": IconType;" +:+ LF
         | part_000 =>
             "export declare const " +:+ formattedName +:+ ": IconType;" +:+ LF
         end
  else None.

(** ** [dirInit] *)

(** [const ignore = err => { if (err.code === "EEXIST") return; throw err; }] *)
Definition ignore (err : Error) : option Error :=
  if decide (code err = "EEXIST") then None else Some err.

(** [const write = (filePath, str) => writeFile(path.resolve(DIST, ...filePath), str, "utf8").catch(ignore)] *)
Definition write (filePath : list string) (str : string) : Async Fs () :=
  catch (writeFile (path_resolve (DIST :: filePath)) str) ignore.

Definition AUTO_GENERATED : string := "// THIS FILE IS AUTO GENERATED" +:+ LF.

Definition initFiles : list string :=
  ["index.d.ts"; "index.mjs"; "all.mjs"; "all.d.ts"].

Definition gitignore : string :=
  String.concat LF
    ("# autogenerated" :: initFiles ++ map (λ icon, id icon +:+ "/") icons) +:+ LF.

Definition dirInit : Async Fs () :=
  match rev with
  | build_js =>
      await catch (mkdir DIST) ignore;
      await for_of icons (λ icon,
        await catch (mkdir (path_resolve [DIST; id icon])) ignore;
        await write [id icon; "index.js"]
          (AUTO_GENERATED +:+ "const { GenIcon } = require('../iconBase')" +:+ LF);
        await write [id icon; "index.mjs"]
          (AUTO_GENERATED +:+ "import { GenIcon } from '../iconBase';" +:+ LF);
        write [id icon; "index.d.ts"]
          ("import { IconData, IconType } from '../iconBase'" +:+ LF +:+ AUTO_GENERATED));
      await write ["index.d.ts"] AUTO_GENERATED;
      await write ["index.mjs"] AUTO_GENERATED;
      await write ["all.mjs"] AUTO_GENERATED;
      write ["all.d.ts"] AUTO_GENERATED
  | part_000 =>
      await catch (mkdir DIST) ignore;
      await catch (mkdir LIB) ignore;
      await detached (writeFile (path_resolve [DIST; ".gitignore"]) gitignore);
      await for_of icons (λ icon,
        await catch (mkdir (path_resolve [DIST; id icon])) ignore;
        await write [id icon; "index.js"]
          (AUTO_GENERATED +:+ "const { GenIcon } = require('../lib/iconBase')" +:+ LF);
        await write [id icon; "index.mjs"]
          (AUTO_GENERATED +:+ "import { GenIcon } from '../lib/iconBase';" +:+ LF);
        write [id icon; "index.d.ts"]
          ("import { IconTree, IconType } from '../lib/iconBase'" +:+ LF +:+ AUTO_GENERATED));
      for_of initFiles (λ file, write [file] AUTO_GENERATED)
  end.

(** ** [writeIconModule] *)

(** The name an icon is exported under:
    [rawName], [pascalName] and [name] of the loop body. *)
Definition resolvedName (icon : IconSetDescriptor) (file : string) : string :=
  let rawName := path_basename file (path_extname file) in
  let pascalName := camelcase rawName true in
  match formatter icon with
  | Some f => let r := f pascalName in if truthy r then r else pascalName
  | None => pascalName
  end.

(** The [for (const file of files)] loop, threading the set [exists];
    the set it ends with is returned so that it can be talked about. *)
Fixpoint iconLoop (icon : IconSetDescriptor) (files : list string)
    (exists_ : gset string) : Async Fs (gset string) :=
  match files with
  | [] => ret exists_
  | file :: files' =>
      const svgStr := await readFile file;
      let iconData := convertIconData svgStr in
      let name := resolvedName icon file in
      if decide (name ∈ exists_) then iconLoop icon files' exists_ (* continue *)
      else
        let exists_ := exists_ ∪ {[name]} in
        let modRes := generateIconRow name iconData (Some "module") in
        await appendFile (path_resolve [DIST; id icon; "index.mjs"]) (js_text modRes);
        let comRes := generateIconRow name iconData (Some "common") in
        await appendFile (path_resolve [DIST; id icon; "index.js"]) (js_text comRes);
        let dtsRes := generateIconRow name iconData (Some "dts") in
        await appendFile (path_resolve [DIST; id icon; "index.d.ts"]) (js_text dtsRes);
        let exists_ := exists_ ∪ {[file]} in
        iconLoop icon files' exists_
  end.

Definition writeIconModule (icon : IconSetDescriptor) : Async Fs () :=
  const files := await getIconFiles icon;
  let exists_ : gset string := ∅ in
  let entryModule := generateIconsEntry (id icon) (Some "module") in
  await appendFile (path_resolve [DIST; "all.mjs"]) (js_text entryModule);
  let entryDts := generateIconsEntry (id icon) (Some "dts") in
  await appendFile (path_resolve [DIST; "all.d.ts"]) (js_text entryDts);
  const _ := await iconLoop icon files exists_;
  ret ().

(** ** [writeIconsManifest] *)

(** [icons.map(icon => ({ id: icon.id, name: icon.name, ... }))] *)
Definition writeObj : list JsObject :=
  map (λ icon, [("id", id icon);
                ("name", name icon);
                ("projectUrl", projectUrl icon);
                ("license", license icon);
                ("licenseUrl", licenseUrl icon)]) icons.

Definition manifestDir : string :=
  match rev with build_js => DIST | part_000 => LIB end.

Definition writeIconsManifest : Async Fs () :=
  let manifest := JSON_stringify_indent writeObj in
  await writeFile (path_resolve [manifestDir; "iconsManifest.mjs"])
    ("export const IconsManifest = " +:+ manifest);
  await writeFile (path_resolve [manifestDir; "iconsManifest.js"])
    ("module.exports.IconsManifest = " +:+ manifest);
  copyFile "src/iconsManifest.d.ts" (path_resolve [manifestDir; "iconsManifest.d.ts"]).

(** ** [writeLicense] *)

(** One paragraph per icon set, a blank line between paragraphs *)
Definition iconLicenses : string :=
  String.concat (LF +:+ LF)
    (map (λ icon,
            String.concat LF
              [name icon +:+ " - " +:+ projectUrl icon;
               "License: " +:+ license icon +:+ " " +:+ licenseUrl icon])
         icons) +:+ LF.

Definition writeLicense : Async Fs () :=
  await copyFile (path_resolve [rootDir; "LICENSE_HEADER"])
                 (path_resolve [rootDir; "LICENSE"]);
  appendFile (path_resolve [rootDir; "LICENSE"]) iconLicenses.

(** ** [writeIndexFile] ([build.js] only) *)
Definition manifestExport : string :=
  "export * from " +:+ DQ +:+ "./iconsManifest" +:+ DQ +:+ ";" +:+ LF.

Definition imports : string :=
  "export { IconBaseProps, IconType } from " +:+ DQ +:+ "./iconBase" +:+ DQ +:+ ";" +:+ LF +:+
  "export * from " +:+ DQ +:+ "./iconContext" +:+ DQ.

Definition writeIndexFile : Async Fs () :=
  await appendFile (path_resolve [DIST; "index.mjs"]) manifestExport;
  await appendFile (path_resolve [DIST; "index.d.ts"]) manifestExport;
  await appendFile (path_resolve [DIST; "index.mjs"]) imports;
  appendFile (path_resolve [DIST; "index.d.ts"]) imports.

(** ** [main] *)

(** The body of the [try] block, up to [console.log("done")] *)
Definition build : Async Fs () :=
  await dirInit;
  await writeLicense;
  await writeIconsManifest;
  await match rev with
        | build_js => writeIndexFile
        | part_000 => ret ()
        end;
  for_of icons writeIconModule.

(** [main]: whatever the [try] block throws is caught and printed *)
Definition main (fs : Fs) : Outcome Fs :=
  match build fs with
  | Ok (_, fs') => Done fs'
  | Err e => Failed e
  end.

End Script.

(** * Reference implementations of the external packages

    Used to run the script on concrete inputs.  They follow the packages'
    documented behaviour on ASCII text. *)

(** ** [camelcase] (version 5, the first with the [pascalCase] option) *)
Module Camelcase.
Definition chars (s : string) : list ascii := String.list_ascii_of_string s.
Definition text (l : list ascii) : string := String.string_of_list_ascii l.

Definition code_in (lo hi : nat) (c : ascii) : bool :=
  let n := nat_of_ascii c in (lo <=? n) && (n <=? hi).
Definition is_upper (c : ascii) : bool := code_in 65 90 c.
Definition is_lower (c : ascii) : bool := code_in 97 122 c.
Definition is_digit (c : ascii) : bool := code_in 48 57 c.
Definition is_letter (c : ascii) : bool := is_upper c || is_lower c.
Definition hyphen : ascii := ascii_of_nat 45.
Definition underscore : ascii := ascii_of_nat 95.
(** the class [\w] *)
Definition is_word (c : ascii) : bool :=
  is_letter c || is_digit c || bool_decide (c = underscore).
(** the class [[_.\- ]] *)
Definition is_sep (c : ascii) : bool :=
  bool_decide (c ∈ [underscore; ascii_of_nat 46; hyphen; ascii_of_nat 32]).
Definition is_space (c : ascii) : bool :=
  bool_decide (nat_of_ascii c ∈ [9; 10; 11; 12; 13; 32]).
Definition toUpperCase (c : ascii) : ascii :=
  if is_lower c then ascii_of_nat (nat_of_ascii c - 32) else c.
Definition toLowerCase (c : ascii) : ascii :=
  if is_upper c then ascii_of_nat (nat_of_ascii c + 32) else c.

Fixpoint drop_while (p : ascii → bool) (l : list ascii) : list ascii :=
  match l with
  | c :: l' => if p c then drop_while p l' else l
  | [] => []
  end.
Definition trim (l : list ascii) : list ascii :=
  reverse (drop_while is_space (reverse (drop_while is_space l))).

(** The [for] loop of [preserveCamelCase], which edits the string it walks
    over.  An iteration that inserts a hyphen before the previous
    character is followed by one that does not, so twice the length
    bounds the number of iterations. *)
Fixpoint preserve_loop (fuel : nat) (s : list ascii) (i : nat)
    (isLastCharLower isLastCharUpper isLastLastCharUpper : bool) : list ascii :=
  match fuel with
  | 0 => s
  | S fuel =>
      match s !! i with
      | None => s
      | Some c =>
          if isLastCharLower && is_letter c && bool_decide (toUpperCase c = c) then
            preserve_loop fuel (take i s ++ hyphen :: drop i s) (i + 2)
              false true isLastCharUpper
          else if isLastCharUpper && isLastLastCharUpper && is_letter c
                  && bool_decide (toLowerCase c = c) then
            preserve_loop fuel (take (i - 1) s ++ hyphen :: drop (i - 1) s) (i + 1)
              true false isLastCharUpper
          else
            preserve_loop fuel s (i + 1)
              (bool_decide (toLowerCase c = c) && bool_decide (toUpperCase c ≠ c))
              (bool_decide (toUpperCase c = c) && bool_decide (toLowerCase c ≠ c))
              isLastCharUpper
      end
  end.
Definition preserveCamelCase (s : list ascii) : list ascii :=
  preserve_loop (2 * length s + 2) s 0 false false false.

(** Backtracking of [[_.\- ]+(\w|$)] inside a run of separators that is not
    followed by a word character: the longest proper prefix of the run
    that is followed by an underscore. *)
Fixpoint backtrack (run : list ascii) (k : nat) : option nat :=
  match k with
  | 0 => None
  | S k' => if bool_decide (run !! k = Some underscore) then Some k
            else backtrack run k'
  end.

(** [.replace(/[_.\- ]+(\w|$)/g, (_, p1) => p1.toUpperCase())] *)
Fixpoint replace_seps (fuel : nat) (s : list ascii) : list ascii :=
  match fuel with
  | 0 => s
  | S fuel =>
      match s with
      | [] => []
      | c :: s' =>
          if is_sep c then
            let rest := drop_while is_sep s in
            let n := length s - length rest in
            match rest with
            | [] => []
            | d :: rest' =>
                if is_word d then toUpperCase d :: replace_seps fuel rest'
                else match backtrack s (n - 1) with
                     | Some k => underscore :: replace_seps fuel (drop (S k) s)
                     | None => c :: replace_seps fuel s'
                     end
            end
          else c :: replace_seps fuel s'
      end
  end.

(** [.replace(/\d+(\w|$)/g, m => m.toUpperCase())]: digits are their own
    upper case, so the replacement upper-cases the word character that
    follows a run of digits. *)
Fixpoint upper_after_digits (after_digit : bool) (s : list ascii) : list ascii :=
  match s with
  | [] => []
  | c :: s' =>
      (if after_digit && is_word c then toUpperCase c else c)
        :: upper_after_digits (is_digit c) s'
  end.

Definition postProcess (pascalCase : bool) (x : list ascii) : list ascii :=
  if pascalCase then
    match x with c :: x' => toUpperCase c :: x' | [] => [] end
  else x.

Definition camelCase (input : string) (pascalCase : bool) : string :=
  let input := trim (chars input) in
  match input with
  | [] => EmptyString
  | [c] => text [if pascalCase then toUpperCase c else toLowerCase c]
  | _ =>
      let hasUpperCase := bool_decide (input ≠ map toLowerCase input) in
      let input := if hasUpperCase then preserveCamelCase input else input in
      let input := drop_while is_sep input in
      let input := map toLowerCase input in
      let input := replace_seps (S (length input)) input in
      let input := upper_after_digits false input in
      text (postProcess pascalCase input)
  end.
End Camelcase.

(** ** [path] (POSIX) *)
Module Path.
Definition slash : ascii := ascii_of_nat 47.
Definition dot : ascii := ascii_of_nat 46.

(** the components between slashes *)
Fixpoint split (s : list ascii) (cur : list ascii) : list (list ascii) :=
  match s with
  | [] => [reverse cur]
  | c :: s' => if decide (c = slash) then reverse cur :: split s' [] else split s' (c :: cur)
  end.

(** one component applied to the stack of components walked so far *)
Definition walk (stack : list string) (comp : list ascii) : list string :=
  let comp := Camelcase.text comp in
  if decide (comp = EmptyString) then stack
  else if decide (comp = ".") then stack
  else if decide (comp = "..") then removelast stack
  else stack ++ [comp].

(** [path.resolve]: a segment that starts with a slash starts over *)
Definition resolve (segments : list string) : string :=
  let step stack seg :=
    let cs := Camelcase.chars seg in
    foldl walk (match cs with
                | c :: _ => if decide (c = slash) then [] else stack
                | [] => stack
                end) (split cs []) in
  "/" +:+ String.concat "/" (foldl step [] segments).

Definition last_component (p : string) : list ascii :=
  List.last (split (Camelcase.chars p) []) [].

(** the position of the last dot of a component, if any *)
Fixpoint last_dot (l : list ascii) (i : nat) (found : option nat) : option nat :=
  match l with
  | [] => found
  | c :: l' => last_dot l' (S i) (if decide (c = dot) then Some i else found)
  end.

(** [path.extname]: from the last dot of the last component, unless that
    dot is its first character *)
Definition extname (p : string) : string :=
  let b := last_component p in
  match last_dot b 0 None with
  | Some (S i) => Camelcase.text (drop (S i) b)
  | _ => EmptyString
  end.

(** [path.basename(p, ext)] *)
Definition basename (p ext : string) : string :=
  let b := last_component p in
  let e := Camelcase.chars ext in
  let n := length b - length e in
  if bool_decide (e ≠ []) && bool_decide (b ≠ e) && bool_decide (drop n b = e)
  then Camelcase.text (take n b) else Camelcase.text b.

(** [path.dirname] *)
Definition dirname (p : string) : string :=
  let cs := split (Camelcase.chars p) [] in
  match removelast cs with
  | [] => "."
  | [[]] => "/"
  | ds => String.concat "/" (map Camelcase.text ds)
  end.
End Path.

(** ** [JSON.stringify] on the values the script prints *)
Module Json.
Definition quote : string := String (ascii_of_nat 34) EmptyString.
Definition backslash : ascii := ascii_of_nat 92.

Fixpoint escape (s : string) : string :=
  match s with
  | EmptyString => EmptyString
  | String c s' =>
      if decide (c = ascii_of_nat 34) then String backslash (String c (escape s'))
      else if decide (c = backslash) then String backslash (String c (escape s'))
      else String c (escape s')
  end.

Definition str (s : string) : string := quote +:+ escape s +:+ quote.

Definition member (kv : string * string) : string := str kv.1 +:+ ":" +:+ str kv.2.

Definition object (o : JsObject) : string :=
  "{" +:+ String.concat "," (map member o) +:+ "}".

Fixpoint tree (t : IconTree) : string :=
  match t with
  | mkIconTree tg at_ ch =>
      "{" +:+ str "tag" +:+ ":" +:+ str tg +:+
      match at_ with
      | Some o => "," +:+ str "attr" +:+ ":" +:+ object o
      | None => EmptyString
      end +:+
      match ch with
      | Some l =>
          "," +:+ str "child" +:+ ":[" +:+
          (fix items (l : list IconTree) : string :=
             match l with
             | [] => EmptyString
             | [t'] => tree t'
             | t' :: l' => tree t' +:+ "," +:+ items l'
             end) l +:+ "]"
      | None => EmptyString
      end +:+ "}"
  end.

(** [JSON.stringify(objects, null, 2)] *)
Definition object_indent (o : JsObject) : string :=
  match o with
  | [] => "  {}"
  | _ => "  {" +:+ LF +:+
         String.concat ("," +:+ LF)
           (map (λ kv, "    " +:+ str kv.1 +:+ ": " +:+ str kv.2) o) +:+
         LF +:+ "  }"
  end.

Definition array_indent (l : list JsObject) : string :=
  match l with
  | [] => "[]"
  | _ => "[" +:+ LF +:+ String.concat ("," +:+ LF) (map object_indent l) +:+ LF +:+ "]"
  end.
End Json.

(** ** An in-memory file system

    Directories and files under their path names; [mkdir] of something that
    exists fails with [EEXIST], anything under a missing directory with
    [ENOENT].  What [glob] finds for a pattern is a table of the disk. *)
Record MemFs : Type := mkMemFs {
  mem_dirs : gset string;
  mem_files : gmap string string;
  mem_glob : list (string * list string)
}.

Module Mem.
Definition error (c : string) (p : string) : Error :=
  {| code := c; message := c +:+ ": " +:+ p |}.

Definition writable (p : string) (d : MemFs) : option Error :=
  if decide (p ∈ mem_dirs d) then Some (error "EISDIR" p)
  else if decide (Path.dirname p ∈ mem_dirs d) then None
  else Some (error "ENOENT" p).

Definition mkdir (p : string) (d : MemFs) : result MemFs :=
  if decide (p ∈ mem_dirs d ∨ is_Some (mem_files d !! p)) then Err (error "EEXIST" p)
  else if decide (Path.dirname p ∈ mem_dirs d) then
    Ok (mkMemFs ({[p]} ∪ mem_dirs d) (mem_files d) (mem_glob d))
  else Err (error "ENOENT" p).

Definition writeFile (p str : string) (d : MemFs) : result MemFs :=
  match writable p d with
  | Some e => Err e
  | None => Ok (mkMemFs (mem_dirs d) (<[p := str]> (mem_files d)) (mem_glob d))
  end.

Definition appendFile (p str : string) (d : MemFs) : result MemFs :=
  match writable p d with
  | Some e => Err e
  | None =>
      Ok (mkMemFs (mem_dirs d)
            (<[p := default EmptyString (mem_files d !! p) +:+ str]> (mem_files d))
            (mem_glob d))
  end.

Definition readFile (p : string) (d : MemFs) : result string :=
  match mem_files d !! p with
  | Some s => Ok s
  | None => Err (error (if decide (p ∈ mem_dirs d) then "EISDIR" else "ENOENT") p)
  end.

Definition copyFile (src dst : string) (d : MemFs) : result MemFs :=
  match readFile src d with
  | Ok s => writeFile dst s d
  | Err e => Err e
  end.

Definition glob (pattern : string) (d : MemFs) : result (list string) :=
  Ok (match list_find (λ row : string * list string, row.1 = pattern) (mem_glob d) with
      | Some (_, (_, found)) => found
      | None => []
      end).
End Mem.

#[export] Instance mem_fs : FileSystem MemFs := {|
  fs_mkdir := Mem.mkdir;
  fs_writeFile := Mem.writeFile;
  fs_appendFile := Mem.appendFile;
  fs_copyFile := Mem.copyFile;
  fs_readFile := Mem.readFile;
  fs_glob := Mem.glob
|}.

(** ** Sample documents, with the DOM cheerio builds for them *)
Module Samples.
(** the document of the specification's end-to-end scenario *)
Definition arrow_left_svg : string :=
  "<svg xmlns='http://www.w3.org/2000/svg' width='24' class='x'><path d='M1 2' fill-opacity='0.5'/></svg>".
Definition arrow_left_dom : list node :=
  [Element "svg"
     [("xmlns", "http://www.w3.org/2000/svg"); ("width", "24"); ("class", "x")]
     [Element "path" [("d", "M1 2"); ("fill-opacity", "0.5")] []]].

(** an [svg] element inside the root one *)
Definition nested_svg : string :=
  "<svg width='24'><svg width='10' height='10'/><rect width='4' height='5' class='c'/></svg>".
Definition nested_dom : list node :=
  [Element "svg" [("width", "24")]
     [Element "svg" [("width", "10"); ("height", "10")] [];
      Element "rect" [("width", "4"); ("height", "5"); ("class", "c")] []]].

(** a root whose only child is a [style] element *)
Definition styled_svg : string := "<svg><style>.a{fill:red}</style></svg>".
Definition styled_dom : list node :=
  [Element "svg" [] [Element "style" [] [Text]]].

(** two attributes with the same camel-case form *)
Definition clash_svg : string := "<svg><path fill-opacity='0.5' fill_opacity='1'/></svg>".
Definition clash_dom : list node :=
  [Element "svg" [] [Element "path" [("fill-opacity", "0.5"); ("fill_opacity", "1")] []]].

Definition documents : list (string * list node) :=
  [(arrow_left_svg, arrow_left_dom); (nested_svg, nested_dom);
   (styled_svg, styled_dom); (clash_svg, clash_dom)].

Definition load (svg : string) : list node :=
  match list_find (λ row : string * list node, row.1 = svg) documents with
  | Some (_, (_, dom)) => dom
  | None => []
  end.
End Samples.

#[export] Instance ref_env : NodeEnv := {|
  camelcase := Camelcase.camelCase;
  cheerio_load := Samples.load;
  JSON_stringify := Json.tree;
  JSON_stringify_indent := Json.array_indent;
  path_resolve := Path.resolve;
  path_basename := Path.basename;
  path_extname := Path.extname;
  dirname__ := "/react-icons/scripts"
|}.

(** ** Sample icon sets and disks *)
Module Disks.
(** an icon set with a prefixing formatter, as the real ones have *)
Definition fa : IconSetDescriptor :=
  {| id := "fa"; name := "Font Awesome"; files := "{FaB,*/b.svg}";
     formatter := Some (λ n, "Fa" +:+ n);
     projectUrl := "https://fontawesome.com/";
     license := "CC BY 4.0 License";
     licenseUrl := "https://creativecommons.org/licenses/by/4.0/" |}.

(** A working directory with a file [FaB] and two files [b.svg], the
    package directory [/react-icons], and what [glob] finds for the one
    pattern in use. *)
Definition disk (found : list string) : MemFs :=
  {| mem_dirs := {[ "/"; "/react-icons"; "."; "icons"; "more"; "src" ]};
     mem_files := list_to_map [("FaB", Samples.arrow_left_svg);
                               ("icons/b.svg", Samples.arrow_left_svg);
                               ("more/b.svg", Samples.arrow_left_svg);
                               ("src/iconsManifest.d.ts", "export {};")];
     mem_glob := [(files fa, found)] |}.

(** the same after an earlier build: the output directories exist *)
Definition built (found : list string) : MemFs :=
  {| mem_dirs := {[ "/react-icons/lib"; "/react-icons/lib/fa" ]} ∪ mem_dirs (disk found);
     mem_files := mem_files (disk found);
     mem_glob := mem_glob (disk found) |}.

(** a package directory in which [.gitignore] is a directory *)
Definition gitignore_dir : MemFs :=
  {| mem_dirs := {[ "/"; "/react-icons"; "/react-icons/.gitignore" ]};
     mem_files := ∅; mem_glob := [] |}.

(** a disk without the package directory *)
Definition bare : MemFs :=
  {| mem_dirs := {[ "/" ]}; mem_files := ∅; mem_glob := [] |}.
(** A checkout of the package with its [LICENSE_HEADER], run from the
    package directory: the icons are under [/react-icons/icons]. *)
Definition checkout : MemFs :=
  {| mem_dirs := {[ "/"; "/react-icons"; "src"; "icons" ]};
     mem_files := list_to_map [("/react-icons/LICENSE_HEADER", "Copyright 2018 kamijin_fanta" +:+ LF +:+ LF);
                               ("src/iconsManifest.d.ts", "export {};");
                               ("icons/a.svg", Samples.arrow_left_svg);
                               ("icons/b.svg", Samples.styled_svg)];
     mem_glob := [("icons/*.svg", ["icons/a.svg"; "icons/b.svg"])] |}.

(** two icon sets over the same files *)
Definition io : IconSetDescriptor :=
  {| id := "io"; name := "Ionicons"; files := "icons/*.svg";
     formatter := Some (λ n, "Io" +:+ n);
     projectUrl := "https://ionicons.com/";
     license := "MIT";
     licenseUrl := "https://github.com/ionic-team/ionicons/blob/master/LICENSE" |}.
Definition plain : IconSetDescriptor :=
  {| id := "pl"; name := "Plain"; files := "icons/*.svg";
     formatter := None;
     projectUrl := "https://example.org/";
     license := "MIT";
     licenseUrl := "https://example.org/LICENSE" |}.
End Disks.

(** * Vocabulary for the properties of effects *)

(** [raised e]: [e] is an error that [mkdir] or [writeFile] rejected with *)
Definition raised `{FileSystem Fs} (e : Error) : Prop :=
  (∃ p fs, fs_mkdir p fs = Err e) ∨ (∃ p str fs, fs_writeFile p str fs = Err e).

(** [guarded m]: [m] never rejects with [EEXIST], and what it rejects with
    comes from the file system *)
Definition guarded `{FileSystem Fs} {A} (m : Async Fs A) : Prop :=
  ∀ fs e, m fs = Err e → code e ≠ "EEXIST" ∧ raised e.

(** [fulfils m]: [m] never rejects *)
Definition fulfils {Fs A} (m : Async Fs A) : Prop :=
  ∀ fs, ∃ r, m fs = Ok r.

(** [grows x y]: the disk [y] has the directories and files of [x], and
    no file of [x] has become a directory *)
Definition grows (x y : MemFs) : Prop :=
  mem_dirs x ⊆ mem_dirs y ∧
  (∀ p, is_Some (mem_files x !! p) → is_Some (mem_files y !! p)) ∧
  (∀ p, is_Some (mem_files x !! p) → p ∉ mem_dirs x → p ∉ mem_dirs y).

(** [rerunnable m]: a run of [m] that fulfils only adds to the disk, and
    [m] fulfils again on the disk it leaves and on every disk grown from it *)
Definition rerunnable (m : Async MemFs ()) : Prop :=
  ∀ x y, m x = Ok ((), y) →
    grows x y ∧ ∀ z, grows y z → ∃ z', m z = Ok ((), z') ∧ grows z z'.

(** The three [appendFile] calls of one iteration of the loop over the
    files, as one computation *)
Definition emitRows `{NodeEnv} `{FileSystem Fs} (rev : revision)
    (icon : IconSetDescriptor) (file svgStr : string) : Async Fs () :=
  let iconData := convertIconData svgStr in
  let name := resolvedName icon file in
  await appendFile (path_resolve [DIST rev; id icon; "index.mjs"])
          (js_text (generateIconRow rev name iconData (Some "module")));
  await appendFile (path_resolve [DIST rev; id icon; "index.js"])
          (js_text (generateIconRow rev name iconData (Some "common")));
  appendFile (path_resolve [DIST rev; id icon; "index.d.ts"])
    (js_text (generateIconRow rev name iconData (Some "dts"))).

(** The files the loop of [writeIconModule] emits rows for, when it starts
    with the set [seen]: the loop's test on [exists], without the effects. *)
Fixpoint emitted `{NodeEnv} (icon : IconSetDescriptor) (files : list string)
    (seen : gset string) : list string :=
  match files with
  | [] => []
  | file :: files' =>
      if decide (resolvedName icon file ∈ seen) then emitted icon files' seen
      else file :: emitted icon files'
                     (seen ∪ {[resolvedName icon file]} ∪ {[file]})
  end.

(** The content of a file, empty when there is none: what an append
    builds on *)
Definition content (d : MemFs) (p : string) : string :=
  default EmptyString (mem_files d !! p).

(** The paths of the generated files: [path.resolve(DIST, icon.id, f)] and
    [path.resolve(DIST, f)] *)
Definition iconFile `{NodeEnv} (rev : revision) (icon : IconSetDescriptor)
    (f : string) : string :=
  path_resolve [DIST rev; id icon; f].
Definition distFile `{NodeEnv} (rev : revision) (f : string) : string :=
  path_resolve [DIST rev; f].

(** The three files of an icon set, each with the [type] of its rows *)
Definition rowFiles : list (string * string) :=
  [("index.mjs", "module"); ("index.js", "common"); ("index.d.ts", "dts")].

(** [append_only m]: a run of [m] keeps every file, with its old content
    as a prefix of the new one *)
Definition append_only {A} (m : Async MemFs A) : Prop :=
  ∀ x a y, m x = Ok (a, y) →
    ∀ p str, mem_files x !! p = Some str →
      ∃ more, mem_files y !! p = Some (str +:+ more).

(** [confined P m]: a run of [m] changes no file outside [P], and no
    directory and no [glob] result at all *)
Definition confined {A} (P : string → Prop) (m : Async MemFs A) : Prop :=
  ∀ x a y, m x = Ok (a, y) →
    mem_dirs y = mem_dirs x ∧ mem_glob y = mem_glob x ∧
    ∀ q, ¬ P q → mem_files y !! q = mem_files x !! q.

(** [writes_within P m]: a run of [m] changes no file outside [P] and no
    [glob] result; it may make directories *)
Definition writes_within {A} (P : string → Prop) (m : Async MemFs A) : Prop :=
  ∀ x a y, m x = Ok (a, y) →
    mem_glob y = mem_glob x ∧
    ∀ q, ¬ P q → mem_files y !! q = mem_files x !! q.

(** The files that [glob] finds for an icon set *)
Definition globbed (d : MemFs) (icon : IconSetDescriptor) : list string :=
  match Mem.glob (files icon) d with Ok found => found | Err _ => [] end.

(** The three files of an icon set, and the two barrels *)
Definition iconFiles `{NodeEnv} (rev : revision) (icon : IconSetDescriptor)
  : list string :=
  (λ r, iconFile rev icon r.1) <$> rowFiles.

Definition barrels `{NodeEnv} (rev : revision) : list string :=
  [distFile rev "all.mjs"; distFile rev "all.d.ts"].

(** The first lines of the three files of an icon set, as [dirInit] writes
    them *)
Definition headers (rev : revision) : list (string * string) :=
  match rev with
  | build_js =>
      [("index.js",
        AUTO_GENERATED +:+ "const { GenIcon } = require('../iconBase')" +:+ LF);
       ("index.mjs",
        AUTO_GENERATED +:+ "import { GenIcon } from '../iconBase';" +:+ LF);
       ("index.d.ts",
        "import { IconData, IconType } from '../iconBase'" +:+ LF +:+ AUTO_GENERATED)]
  | part_000 =>
      [("index.js",
        AUTO_GENERATED +:+ "const { GenIcon } = require('../lib/iconBase')" +:+ LF);
       ("index.mjs",
        AUTO_GENERATED +:+ "import { GenIcon } from '../lib/iconBase';" +:+ LF);
       ("index.d.ts",
        "import { IconTree, IconType } from '../lib/iconBase'" +:+ LF +:+ AUTO_GENERATED)]
  end.

(** The rows of one of the three files, for the icon files [kept] as the
    disk [d] holds them *)
Definition rowsOf `{NodeEnv} (rev : revision) (icon : IconSetDescriptor)
    (type : string) (d : MemFs) (kept : list string) : string :=
  String.concat EmptyString
    ((λ f, js_text (generateIconRow rev (resolvedName icon f)
                      (convertIconData (content d f)) (Some type))) <$> kept).

(** Every path the script writes to *)
Definition outputs `{NodeEnv} (rev : revision) (icons : list IconSetDescriptor)
  : list string :=
  path_resolve [rootDir; "LICENSE"] ::
  ((λ f, path_resolve [manifestDir rev; f]) <$>
     ["iconsManifest.mjs"; "iconsManifest.js"; "iconsManifest.d.ts"]) ++
  (distFile rev <$>
     match rev with
     | build_js => initFiles
     | part_000 => ".gitignore" :: initFiles
     end) ++
  (icons ≫= iconFiles rev).

(** [regrows x y]: [grows x y], with the same [glob] results *)
Definition regrows (x y : MemFs) : Prop :=
  grows x y ∧ mem_glob y = mem_glob x.

(** [repeats m m']: a run of [m] that fulfils only adds to the disk and
    keeps the [glob] results, and [m'] fulfils with the same value on the
    disk that [m] leaves and on every disk grown from it *)
Definition repeats {A} (m m' : Async MemFs A) : Prop :=
  ∀ x a y, m x = Ok (a, y) →
    regrows x y ∧ ∀ z, regrows y z → ∃ z', m' z = Ok (a, z') ∧ regrows z z'.

(** * Occurrence in a tree *)

(** [InTree s t]: the emitted node [s] occurs in [t], at any depth *)
Inductive InTree (s : IconTree) : IconTree → Prop :=
| InTree_here : InTree s s
| InTree_child t l c : child t = Some l → c ∈ l → InTree s c → InTree s t.

(** [Inside e d]: the DOM node [e] is [d] or one of its descendants *)
Inductive Inside (e : node) : node → Prop :=
| Inside_here : Inside e e
| Inside_child p l c : children p = Some l → c ∈ l → Inside e c → Inside e p.

(** * Properties *)

(** ** Objects *)
Section Objects.
Implicit Types (o : JsObject) (k v : string).

Lemma obj_get_set_eq o k v : obj_get (obj_set o k v) k = Some v.
Proof.
  induction o as [|[k' v'] o IH]; simpl.
  - by rewrite decide_True.
  - destruct (decide (k' = k)) as [->|Hne]; simpl.
    + by rewrite decide_True.
    + by rewrite decide_False.
Qed.

Lemma obj_get_set_ne o k k' v : k ≠ k' → obj_get (obj_set o k v) k' = obj_get o k'.
Proof.
  intros Hne. induction o as [|[k0 v0] o IH]; simpl.
  - by rewrite decide_False.
  - destruct (decide (k0 = k)) as [->|Hk0]; simpl.
    + by rewrite !decide_False.
    + destruct (decide (k0 = k')); [done | apply IH].
Qed.

Lemma obj_get_is_Some o k : is_Some (obj_get o k) ↔ k ∈ object_keys o.
Proof.
  unfold object_keys. induction o as [|[k' v'] o IH]; simpl.
  - split; [intros [? [=]] | by intros ?%elem_of_nil].
  - rewrite elem_of_cons. destruct (decide (k' = k)) as [->|Hne].
    + split; eauto.
    + rewrite IH. split; [by right | intros [?|?]; [congruence | done]].
Qed.

Lemma obj_get_elem_of o k v : obj_get o k = Some v → (k, v) ∈ o.
Proof.
  induction o as [|[k' v'] o IH]; simpl; [done|].
  destruct (decide (k' = k)) as [->|Hne].
  - intros [= ->]. left.
  - intros ?. right. by apply IH.
Qed.

Lemma obj_get_middle o1 o2 k v :
  k ∉ object_keys o1 → obj_get (o1 ++ (k, v) :: o2) k = Some v.
Proof.
  unfold object_keys. induction o1 as [|[k' v'] o1 IH]; simpl; intros Hk.
  - by rewrite decide_True.
  - apply not_elem_of_cons in Hk as [Hne Hk].
    rewrite decide_False by done. by apply IH.
Qed.

Lemma obj_set_keys o k v k' :
  k' ∈ object_keys (obj_set o k v) ↔ k' = k ∨ k' ∈ object_keys o.
Proof.
  rewrite <-!obj_get_is_Some. destruct (decide (k = k')) as [->|Hne].
  - rewrite obj_get_set_eq. split; eauto.
  - rewrite obj_get_set_ne by done. split; [by right | intros [?|?]; [congruence | done]].
Qed.
End Objects.

(** ** [attrConverter] *)
Section AttrConverter.
Context `{NodeEnv}.
Variable attribs : JsObject.

Lemma attrConverter_Some tagName :
  attrConverter (Some attribs) tagName =
  Some (foldl (reducer attribs) [] (filter (λ name, name ∉ dropped tagName) (object_keys attribs))).
Proof. reflexivity. Qed.

Lemma reduce_keys names acc k :
  k ∈ object_keys (foldl (reducer attribs) acc names) ↔
  k ∈ object_keys acc ∨
  ∃ n, n ∈ names ∧ n ∈ object_keys attribs ∧ camelcase n false = k.
Proof.
  revert acc. induction names as [|n names IH]; intros acc; simpl.
  - split; [by left | intros [?|(? & ?%elem_of_nil & _)]; done].
  - rewrite IH. unfold reducer.
    destruct (obj_get attribs n) as [v|] eqn:Hn.
    + rewrite obj_set_keys. split.
      * intros [[->|?]|(n' & ? & ? & ?)]; [right|by left|right].
        -- exists n. split_and!; [left | apply obj_get_is_Some; eauto | done].
        -- exists n'. split_and!; [by right | done..].
      * intros [?|(n' & [->|?]%elem_of_cons & ? & ?)]; [by left; right| by left; left | right; eauto].
    + split.
      * intros [?|(n' & ? & ? & ?)]; [by left | right].
        exists n'. split_and!; [by right | done..].
      * intros [?|(n' & [->|?]%elem_of_cons & Hin & ?)]; [by left | | right; eauto].
        apply obj_get_is_Some in Hin as [? ?]. congruence.
Qed.

Lemma reduce_get_stable names acc k v :
  obj_get acc k = Some v →
  (∀ n, n ∈ names → camelcase n false ≠ k) →
  obj_get (foldl (reducer attribs) acc names) k = Some v.
Proof.
  revert acc. induction names as [|n names IH]; intros acc Hacc Hne; simpl; [done|].
  apply IH.
  - unfold reducer. destruct (obj_get attribs n); [|done].
    rewrite obj_get_set_ne; [done|]. apply Hne. left.
  - intros n' ?. apply Hne. by right.
Qed.

Lemma reduce_get_last names1 n names2 acc v :
  obj_get attribs n = Some v →
  (∀ n', n' ∈ names2 → camelcase n' false ≠ camelcase n false) →
  obj_get (foldl (reducer attribs) acc (names1 ++ n :: names2)) (camelcase n false) = Some v.
Proof.
  intros Hn Hne. rewrite foldl_app. simpl. apply reduce_get_stable; [|done].
  unfold reducer at 1. rewrite Hn. apply obj_get_set_eq.
Qed.

Lemma reduce_get_origin names acc k v :
  obj_get (foldl (reducer attribs) acc names) k = Some v →
  obj_get acc k = Some v ∨
  ∃ n, n ∈ names ∧ obj_get attribs n = Some v ∧ camelcase n false = k.
Proof.
  revert acc. induction names as [|n names IH]; intros acc; simpl; [by left|].
  intros [Hacc|(n' & ? & ? & ?)]%IH.
  - unfold reducer in Hacc. destruct (obj_get attribs n) as [v'|] eqn:Hn; [|by left].
    destruct (decide (camelcase n false = k)) as [<-|Hne].
    + rewrite obj_get_set_eq in Hacc. injection Hacc as ->.
      right. exists n. split_and!; [left | done..].
    + rewrite obj_get_set_ne in Hacc by done. by left.
  - right. exists n'. split_and!; [by right | done..].
Qed.

Lemma reduce_get_after names1 n names2 acc v :
  obj_get attribs n = Some v →
  ∃ v', obj_get (foldl (reducer attribs) acc (names1 ++ n :: names2)) (camelcase n false) = Some v' ∧
        (v' = v ∨ ∃ n', n' ∈ names2 ∧ obj_get attribs n' = Some v' ∧
                        camelcase n' false = camelcase n false).
Proof.
  intros Hn. rewrite foldl_app. simpl.
  set (acc0 := (reducer attribs) (foldl (reducer attribs) acc names1) n).
  assert (Hacc : obj_get acc0 (camelcase n false) = Some v).
  { unfold acc0, reducer. rewrite Hn. apply obj_get_set_eq. }
  assert (is_Some (obj_get (foldl (reducer attribs) acc0 names2) (camelcase n false))) as [v' Hv'].
  { apply obj_get_is_Some, reduce_keys. left. apply obj_get_is_Some. eauto. }
  exists v'. split; [done|].
  destruct (reduce_get_origin _ _ _ _ Hv') as [Hsame|?]; [left; congruence | by right].
Qed.
End AttrConverter.

(** ** [elementToTree] *)
Section Tree.
Context `{NodeEnv}.

(** Induction on DOM nodes, with the hypothesis on every child *)
Lemma node_nested_ind (P : node → Prop) :
  (∀ tn at_ ch, (∀ l, ch = Some l → Forall P l) → P (mkNode tn at_ ch)) →
  ∀ e, P e.
Proof.
  intros HP. fix IH 1. intros [tn at_ ch]. apply HP.
  destruct ch as [l0|]; intros l Heq; [|discriminate].
  replace l with l0 by congruence. clear l Heq.
  induction l0 as [|x l0 IHl]; constructor; [apply IH | apply IHl].
Qed.

(** The equation of the source: filter, map, and recursion on the
    children when there are any. *)
Lemma nodeToTree_unfold tn at_ ch :
  nodeToTree (mkNode tn at_ ch) =
  match tn with
  | Some n =>
      if truthy n && negb (includes ["style"] n) then
        Some {| tag := n;
                attr := attrConverter at_ n;
                child := match ch with
                         | Some (c :: cs) => Some (elementToTree (c :: cs))
                         | _ => None
                         end |}
      else None
  | None => None
  end.
Proof.
  destruct tn as [n|]; [|done]. simpl.
  destruct (truthy n && negb (includes ["style"] n)); [|done].
  by destruct ch as [[|c cs]|].
Qed.

Lemma nodeToTree_keeps e : keeps e = false → nodeToTree e = None.
Proof.
  destruct e as [tn at_ ch]. rewrite nodeToTree_unfold. unfold keeps. simpl.
  destruct tn; [|done]. by intros ->.
Qed.

Lemma includes_style n : includes ["style"] n = bool_decide (n = "style").
Proof.
  unfold includes. apply bool_decide_ext.
  rewrite elem_of_cons, elem_of_nil. tauto.
Qed.

(** What a kept node is mapped to *)
Lemma nodeToTree_Some e t :
  nodeToTree e = Some t →
  keeps e = true ∧
  tagName e = Some (tag t) ∧ tag t ≠ EmptyString ∧ tag t ≠ "style" ∧
  attr t = attrConverter (attribs e) (tag t) ∧
  child t = match children e with
            | Some (c :: cs) => Some (elementToTree (c :: cs))
            | _ => None
            end.
Proof.
  destruct e as [tn at_ ch]. rewrite nodeToTree_unfold. unfold keeps. simpl.
  destruct tn as [n|]; [|done].
  destruct (truthy n && negb (includes ["style"] n)) eqn:Hk; [|done].
  intros [= <-]. simpl. apply andb_true_iff in Hk as [Hn Hs].
  rewrite includes_style in Hs. apply negb_true_iff, bool_decide_eq_false in Hs.
  split_and!; try done. by destruct n.
Qed.

Lemma elem_of_elementToTree t element :
  t ∈ elementToTree element ↔ ∃ e, e ∈ element ∧ nodeToTree e = Some t.
Proof. unfold elementToTree. apply list_elem_of_omap. Qed.

(** The emitted nodes are the images of the kept nodes, in their order *)
Lemma elementToTree_Forall2 element :
  Forall2 (λ e t, nodeToTree e = Some t)
    (filter (λ e, keeps e = true) element) (elementToTree element).
Proof.
  unfold elementToTree. induction element as [|e l IH]; simpl; [constructor|].
  destruct (nodeToTree e) as [t|] eqn:He.
  - rewrite filter_cons_True by (by apply nodeToTree_Some in He as [? _]).
    by constructor.
  - destruct (keeps e) eqn:Hk.
    + exfalso. destruct e as [tn at_ ch]. rewrite nodeToTree_unfold in He.
      unfold keeps in Hk. simpl in Hk. destruct tn; [|done]. by rewrite Hk in He.
    + rewrite filter_cons_False; [done|]. by rewrite Hk.
Qed.

(** Every node of an emitted tree is the image of a DOM node found under
    the node the tree was made from. *)
Lemma InTree_source s t :
  InTree s t → ∀ d, nodeToTree d = Some t →
  ∃ e, Inside e d ∧ nodeToTree e = Some s.
Proof.
  induction 1 as [|t l c Hl Hc _ IH]; intros d Hd.
  - exists d. split; [constructor | done].
  - apply nodeToTree_Some in Hd as (_ & _ & _ & _ & _ & Hch).
    rewrite Hl in Hch. destruct (children d) as [[|x xs]|] eqn:Hd'; try done.
    assert (l = elementToTree (x :: xs)) as -> by congruence.
    apply elem_of_elementToTree in Hc as (e' & He' & Hc).
    destruct (IH _ Hc) as (e & Hin & He).
    exists e. split; [|done]. by eapply Inside_child.
Qed.

(** cheerio's selection: nodes of the document with the selected name *)
Lemma select_node_spec sel d x :
  x ∈ select_node sel d → Inside x d ∧ tagName x = Some sel.
Proof.
  revert x. induction d as [tn at_ ch IH] using node_nested_ind. intros x.
  simpl. rewrite elem_of_app. intros [Hx|Hx].
  - destruct (decide (tn = Some sel)) as [->|]; [|by apply elem_of_nil in Hx].
    apply list_elem_of_singleton in Hx as ->. split; [constructor | done].
  - destruct ch as [l|]; [|by apply elem_of_nil in Hx].
    specialize (IH l eq_refl).
    assert (∃ c, c ∈ l ∧ x ∈ select_node sel c) as (c & Hc & Hxc).
    { clear IH. induction l as [|c l IHl]; [by apply elem_of_nil in Hx|].
      apply elem_of_app in Hx as [Hx|Hx]; [exists c; split; [left|done]|].
      destruct (IHl Hx) as (c' & ? & ?). exists c'. split; [by right|done]. }
    rewrite Forall_forall in IH. destruct (IH c Hc x Hxc) as [Hin Ht].
    split; [|done]. eapply Inside_child; [done | exact Hc | done].
Qed.

Lemma select_spec sel dom x :
  x ∈ select sel dom → ∃ d, d ∈ dom ∧ Inside x d ∧ tagName x = Some sel.
Proof.
  unfold select. rewrite list_elem_of_In, in_flat_map.
  intros (d & Hd & Hx). exists d. rewrite list_elem_of_In. split; [done|].
  by apply select_node_spec, list_elem_of_In.
Qed.

Lemma Inside_trans e c d : Inside e c → Inside c d → Inside e d.
Proof.
  intros He. induction 1 as [|p l c' Hl Hc _ IH]; [done|].
  eapply Inside_child; eauto.
Qed.

(** The root that [convertIconData] returns comes from an [svg] element
    of the document. *)
Lemma convertIconData_root svg root :
  convertIconData svg = Some root →
  tag root = "svg" ∧
  ∃ r d, d ∈ cheerio_load svg ∧ Inside r d ∧ nodeToTree r = Some root.
Proof.
  unfold convertIconData. intros Hh.
  assert (root ∈ elementToTree (select "svg" (cheerio_load svg))) as Hin.
  { destruct (elementToTree _); simplify_eq/=. left. }
  apply elem_of_elementToTree in Hin as (r & Hr & Hroot).
  apply select_spec in Hr as (d & Hd & Hin & Ht).
  split; [|by eauto].
  apply nodeToTree_Some in Hroot as (_ & Ht' & _). congruence.
Qed.
End Tree.

(** * Parsing *)

Lemma dropped_spec tagName n :
  n ∉ dropped tagName ↔
  n ≠ "class" ∧ (tagName = "svg" → n ≠ "xmlns" ∧ n ≠ "width" ∧ n ≠ "height").
Proof.
  unfold dropped. destruct (decide (tagName = "svg")) as [->|Hne].
  - rewrite !not_elem_of_cons. split.
    + intros (? & ? & ? & ? & _). by split.
    + intros [? Hs]. destruct (Hs eq_refl) as (? & ? & ?).
      split_and!; try done. apply not_elem_of_nil.
  - rewrite not_elem_of_cons. split.
    + intros [? _]. by split.
    + intros [? _]. split; [done | apply not_elem_of_nil].
Qed.

(** C1 (as amended).  The filter looks at the tag name, not at the position:
    in the tree returned for a document, the root is an [svg] node, and
    every node comes from a node of the document whose attributes reach it
    as follows.  An attribute is carried over (under its camel-cased name)
    exactly when its name is not [class] and, for a node called [svg] -- the
    root or a nested one --, not [xmlns], [width] or [height] either.  A
    node with any other tag name keeps its [width] and [height]. *)
Theorem attributes_filtered_by_tag_name `{NodeEnv}
    (svg : string) (root s : IconTree) :
  convertIconData svg = Some root →
  InTree s root →
  tag root = "svg" ∧
  ∃ e d, d ∈ cheerio_load svg ∧ Inside e d ∧
    tagName e = Some (tag s) ∧
    attr s = attrConverter (attribs e) (tag s) ∧
    ∀ a, attribs e = Some a →
      ∃ out, attr s = Some out ∧
        ∀ k, k ∈ object_keys out ↔
             ∃ n, n ∈ object_keys a ∧ n ≠ "class" ∧
                  (tag s = "svg" → n ≠ "xmlns" ∧ n ≠ "width" ∧ n ≠ "height") ∧
                  camelcase n false = k.
Proof.
  intros Hroot Hs.
  destruct (convertIconData_root _ _ Hroot) as (Htag & r & d & Hd & Hr & Hconv).
  split; [done|].
  destruct (InTree_source _ _ Hs _ Hconv) as (e & Hin & He).
  exists e, d. apply nodeToTree_Some in He as (_ & Hname & _ & _ & Hattr & _).
  split_and!; [done | by eapply Inside_trans | done | done |].
  intros a Ha. rewrite Ha, attrConverter_Some in Hattr. eexists. split; [done|].
  intros k. rewrite reduce_keys. split.
  - intros [?%elem_of_nil|(n & [Hdrop Hn]%list_elem_of_filter & _ & Hk)]; [done|].
    apply dropped_spec in Hdrop as [? ?]. eauto 10.
  - intros (n & Hn & Hc & Hsvg & Hk). right. exists n. split_and!; [|done..].
    apply list_elem_of_filter. split; [|done]. by apply dropped_spec.
Qed.

(** C2 (as amended).  [child] is missing exactly when the DOM node has no
    child nodes of any kind; a node with child nodes gets the sequence --
    possibly empty -- of the images of its kept children, in document
    order. *)
Theorem child_absent_iff_no_child_nodes `{NodeEnv} (e : node) (t : IconTree) :
  nodeToTree e = Some t →
  (child t = None ↔ children e = None ∨ children e = Some []) ∧
  ∀ l, children e = Some l → l ≠ [] →
    ∃ ts, child t = Some ts ∧
      Forall2 (λ c tc, nodeToTree c = Some tc) (filter (λ c, keeps c = true) l) ts.
Proof.
  intros (_ & _ & _ & _ & _ & Hch)%nodeToTree_Some. rewrite Hch. split.
  - destruct (children e) as [[|c cs]|].
    + split; [by right | done].
    + split; [done | by intros [?|?]].
    + split; [by left | done].
  - intros l -> Hl. destruct l as [|c cs]; [done|].
    eexists. split; [done|]. apply elementToTree_Forall2.
Qed.

(** C5 (as amended).  A retained attribute [n] is stored under the key
    [camelcase n]; the value under that key is the one of the last
    retained attribute with that camel-case form -- the attribute's own
    value, unchanged, unless a later retained attribute of the element has
    the same camel-case form. *)
Theorem attribute_renamed `{NodeEnv} (e : node) (t : IconTree)
    (a1 a2 : JsObject) (n v : string) :
  nodeToTree e = Some t →
  attribs e = Some (a1 ++ (n, v) :: a2) →
  NoDup (object_keys (a1 ++ (n, v) :: a2)) →
  n ∉ dropped (tag t) →
  ∃ out, attr t = Some out ∧
    camelcase n false ∈ object_keys out ∧
    (∃ n' v', (n', v') ∈ (n, v) :: a2 ∧ (n' ∉ dropped (tag t)) ∧
              camelcase n' false = camelcase n false ∧
              obj_get out (camelcase n false) = Some v') ∧
    ((∀ n', n' ∈ object_keys a2 → n' ∉ dropped (tag t) →
            camelcase n' false ≠ camelcase n false) →
     obj_get out (camelcase n false) = Some v).
Proof.
  intros (_ & _ & _ & _ & Hattr & _)%nodeToTree_Some Ha Hnd Hkeep.
  rewrite Ha, attrConverter_Some in Hattr. eexists. split; [done|].
  set (a := a1 ++ (n, v) :: a2) in *.
  assert (Hget : obj_get a n = Some v).
  { apply obj_get_middle. unfold a, object_keys in Hnd.
    rewrite fmap_app in Hnd. apply NoDup_app in Hnd as (_ & Hnd & _).
    intros Hin. apply (Hnd _ Hin). left. }
  assert (Hkeys : object_keys a = object_keys a1 ++ n :: object_keys a2).
  { unfold a, object_keys. by rewrite fmap_app. }
  rewrite Hkeys, filter_app, filter_cons_True by done.
  assert (Hlater : ∀ n' v', n' ∈ object_keys a2 → obj_get a n' = Some v' →
                            (n', v') ∈ a2).
  { intros n' v' Hn' Hg. apply obj_get_elem_of in Hg. unfold a in Hg.
    rewrite Hkeys in Hnd. apply NoDup_app in Hnd as (_ & Hdis & Hnd2).
    apply NoDup_cons in Hnd2 as [Hn2 _].
    apply elem_of_app in Hg as [Hg|[Hg|Hg]%elem_of_cons]; [| |done].
    - exfalso. apply (Hdis n'); [|by right].
      apply list_elem_of_fmap. by exists (n', v').
    - simplify_eq. done. }
  split_and!.
  - apply reduce_keys. right. exists n. split_and!; [|rewrite Hkeys|done].
    + apply elem_of_app. right. left.
    + apply elem_of_app. right. left.
  - destruct (reduce_get_after a (filter (λ name, name ∉ dropped (tag t)) (object_keys a1))
                n (filter (λ name, name ∉ dropped (tag t)) (object_keys a2)) [] v Hget)
      as (v' & Hv' & [->|(n' & Hn' & Hgn' & Heq)]).
    + exists n, v. split_and!; [left | done | done | done].
    + apply list_elem_of_filter in Hn' as [Hdrop Hn'].
      exists n', v'. split_and!; [right; by apply Hlater | done | done | done].
  - intros Hfresh. apply reduce_get_last; [done|].
    intros n' [Hdrop Hn']%list_elem_of_filter. by apply Hfresh.
Qed.

(** A [style] element in a collection leaves no trace in the result. *)
Lemma elementToTree_skips_style `{NodeEnv} l1 a c l2 :
  elementToTree (l1 ++ mkNode (Some "style") a c :: l2) = elementToTree (l1 ++ l2).
Proof.
  unfold elementToTree. by rewrite !omap_app.
Qed.

(** C6.  No node of the tree returned for a document is called [style], at
    any depth; a [style] element is dropped whatever its attributes and
    content, which are never looked at, and the rest of its collection is
    converted as if it were not there. *)
Theorem style_never_emitted `{NodeEnv} (svg : string) (root s : IconTree) :
  convertIconData svg = Some root →
  InTree s root →
  tag s ≠ "style" ∧
  (∀ a c, nodeToTree (mkNode (Some "style") a c) = None) ∧
  (∀ l1 a c l2, elementToTree (l1 ++ mkNode (Some "style") a c :: l2)
                = elementToTree (l1 ++ l2)).
Proof.
  intros (_ & r & _ & _ & _ & Hr)%convertIconData_root Hs. split_and!.
  - destruct (InTree_source _ _ Hs _ Hr) as (e & _ & He).
    by apply nodeToTree_Some in He as (_ & _ & _ & ? & _).
  - intros a c. by rewrite nodeToTree_unfold.
  - apply elementToTree_skips_style.
Qed.

(** C10.  [generateIconsEntry] gives the same text for ["module"] and
    ["dts"] (and for an omitted type, which defaults to ["module"]), and
    nothing for any other type. *)
Theorem generateIconsEntry_formats (iconId type : string) :
  type ≠ "module" → type ≠ "dts" →
  generateIconsEntry iconId (Some "module") = generateIconsEntry iconId (Some "dts") ∧
  generateIconsEntry iconId (Some "module")
    = Some ("export * from './" +:+ iconId +:+ "';" +:+ LF) ∧
  generateIconsEntry iconId None = generateIconsEntry iconId (Some "module") ∧
  generateIconsEntry iconId (Some type) = None.
Proof.
  intros Hm Hd. split_and!; try reflexivity.
  unfold generateIconsEntry. simpl. by rewrite !decide_False.
Qed.

(** C4 (as amended).  The exported name is the formatter's result on the
    pascal-cased base name when there is a formatter and its result is not
    the empty string; it is the pascal-cased base name itself when the
    formatter returns the empty string or when there is no formatter. *)
Theorem resolvedName_formatter `{NodeEnv} (icon : IconSetDescriptor)
    (file pascalName : string) :
  pascalName = camelcase (path_basename file (path_extname file)) true →
  resolvedName icon file =
    match formatter icon with
    | Some f => if decide (f pascalName = EmptyString) then pascalName else f pascalName
    | None => pascalName
    end.
Proof.
  intros ->. unfold resolvedName. destruct (formatter icon) as [f|]; [|done].
  cbv zeta. set (r := f _).
  destruct (decide (r = EmptyString)) as [->|Hne]; [done|]. by destruct r.
Qed.

(** * Closed examples about parsing *)

(** The specification's end-to-end document *)
Example arrow_left_tree :
  convertIconData Samples.arrow_left_svg =
  Some {| tag := "svg"; attr := Some [];
          child := Some [{| tag := "path";
                            attr := Some [("d", "M1 2"); ("fillOpacity", "0.5")];
                            child := None |}] |}.
Proof. reflexivity. Qed.

(** C1, counterexample.  In [<svg width='24'><svg width='10' height='10'/>
    <rect .../></svg>] the inner [svg] is not the root, yet its [width] and
    [height] are dropped, where a non-root element was to keep them. *)
Lemma nested_svg_loses_size :
  (∃ a rest, Samples.nested_dom =
             [Element "svg" a
                (Element "svg" [("width", "10"); ("height", "10")] [] :: rest)]) ∧
  convertIconData Samples.nested_svg =
  Some {| tag := "svg"; attr := Some [];
          child := Some [{| tag := "svg"; attr := Some []; child := None |};
                         {| tag := "rect";
                            attr := Some [("width", "4"); ("height", "5")];
                            child := None |}] |}.
Proof. split; [by eexists _, _ | reflexivity]. Qed.

Lemma attributes_filtered_by_tag_name_witness :
  let rect := {| tag := "rect"; attr := Some [("width", "4"); ("height", "5")];
                 child := None |} in
  let root := {| tag := "svg"; attr := Some [];
                 child := Some [{| tag := "svg"; attr := Some []; child := None |};
                                rect] |} in
  convertIconData Samples.nested_svg = Some root ∧ InTree rect root ∧
  tag root = "svg".
Proof.
  intros rect root.
  assert (H1 : convertIconData Samples.nested_svg = Some root) by reflexivity.
  assert (H2 : InTree rect root).
  { eapply InTree_child; [reflexivity | right; left | constructor]. }
  split_and!; [exact H1 | exact H2 |].
  exact (proj1 (attributes_filtered_by_tag_name _ _ _ H1 H2)).
Defined.

(** C2, counterexample.  The root of [<svg><style>...</style></svg>] has no
    qualifying child, yet its node carries [child], as an empty sequence. *)
Lemma style_only_child_is_empty_sequence :
  let kids := [Element "style" [] [Text]] in
  filter (λ c, keeps c = true) kids = [] ∧
  nodeToTree (Element "svg" [] kids)
    = Some {| tag := "svg"; attr := Some []; child := Some [] |}.
Proof. split; reflexivity. Qed.

Lemma child_absent_iff_no_child_nodes_witness :
  let e := Element "svg" [] [Element "g" [] []; Text; Element "style" [] []] in
  let t := {| tag := "svg"; attr := Some [];
              child := Some [{| tag := "g"; attr := Some []; child := None |}] |} in
  nodeToTree e = Some t ∧
  (child t = None ↔ children e = None ∨ children e = Some []).
Proof.
  intros e t. assert (H1 : nodeToTree e = Some t) by reflexivity.
  split; [exact H1 |].
  exact (proj1 (child_absent_iff_no_child_nodes e t H1)).
Defined.

(** C5, counterexample.  [fill-opacity] is retained and has a hyphen; the
    key [fillOpacity] is emitted, but with the value of [fill_opacity], which
    has the same camel-case form and comes later. *)
Lemma clashing_attribute_loses_value :
  camelcase "fill-opacity" false = "fillOpacity" ∧
  nodeToTree (Element "path" [("fill-opacity", "0.5"); ("fill_opacity", "1")] [])
    = Some {| tag := "path"; attr := Some [("fillOpacity", "1")]; child := None |} ∧
  obj_get [("fillOpacity", "1")] "fillOpacity" ≠ Some "0.5".
Proof. split_and!; [reflexivity | reflexivity | discriminate]. Qed.

Lemma attribute_renamed_witness :
  let e := Element "path" [("d", "M1 2"); ("fill-opacity", "0.5")] [] in
  let t := {| tag := "path"; attr := Some [("d", "M1 2"); ("fillOpacity", "0.5")];
              child := None |} in
  nodeToTree e = Some t ∧
  ∃ out, attr t = Some out ∧
    camelcase "fill-opacity" false ∈ object_keys out ∧
    (∃ n' v', (n', v') ∈ [("fill-opacity", "0.5")] ∧ (n' ∉ dropped (tag t)) ∧
              camelcase n' false = camelcase "fill-opacity" false ∧
              obj_get out (camelcase "fill-opacity" false) = Some v') ∧
    ((∀ n', n' ∈ object_keys [] → n' ∉ dropped (tag t) →
            camelcase n' false ≠ camelcase "fill-opacity" false) →
     obj_get out (camelcase "fill-opacity" false) = Some "0.5").
Proof.
  intros e t. assert (H1 : nodeToTree e = Some t) by reflexivity.
  split; [exact H1 |].
  apply (attribute_renamed e t [("d", "M1 2")] [] "fill-opacity" "0.5" H1).
  - reflexivity.
  - apply (bool_decide_unpack _). vm_compute. exact I.
  - apply (bool_decide_unpack _). vm_compute. exact I.
Defined.

Lemma style_never_emitted_witness :
  let t := {| tag := "svg"; attr := Some []; child := Some [] |} in
  convertIconData Samples.styled_svg = Some t ∧ InTree t t ∧ tag t ≠ "style".
Proof.
  intros t.
  assert (H1 : convertIconData Samples.styled_svg = Some t) by reflexivity.
  assert (H2 : InTree t t) by constructor.
  split_and!; [exact H1 | exact H2 |].
  exact (proj1 (style_never_emitted Samples.styled_svg t t H1 H2)).
Defined.

Lemma generateIconsEntry_formats_witness :
  generateIconsEntry "fa" (Some "module") = generateIconsEntry "fa" (Some "dts") ∧
  generateIconsEntry "fa" (Some "module") = Some ("export * from './fa';" +:+ LF) ∧
  generateIconsEntry "fa" None = generateIconsEntry "fa" (Some "module") ∧
  generateIconsEntry "fa" (Some "common") = None.
Proof. apply (generateIconsEntry_formats "fa" "common"); discriminate. Defined.

(** C4, counterexample.  A formatter that returns the empty string: the
    name is the pascal-cased base name, not what the formatter returned. *)
Lemma empty_formatter_result_is_replaced :
  let f := λ _ : string, EmptyString in
  let icon := {| id := "x"; name := "X"; files := "icons/*.svg"; formatter := Some f;
                 projectUrl := "u"; license := "MIT"; licenseUrl := "l" |} in
  camelcase (path_basename "icons/arrow-left.svg" (path_extname "icons/arrow-left.svg")) true
    = "ArrowLeft" ∧
  resolvedName icon "icons/arrow-left.svg" = "ArrowLeft" ∧
  resolvedName icon "icons/arrow-left.svg" ≠ f "ArrowLeft".
Proof. split_and!; [reflexivity | reflexivity | discriminate]. Qed.

Lemma resolvedName_formatter_witness :
  let icon := {| id := "fa"; name := "Font Awesome"; files := "icons/*.svg";
                 formatter := Some (λ n, "Fa" +:+ n);
                 projectUrl := "u"; license := "MIT"; licenseUrl := "l" |} in
  resolvedName icon "icons/arrow-left.svg" = "FaArrowLeft".
Proof.
  intros icon.
  exact (resolvedName_formatter icon "icons/arrow-left.svg" "ArrowLeft" eq_refl).
Defined.

(** * Effects *)

(** ** The monad *)
Section Monad.
Context {Fs : Type}.

Lemma bind_Ok {A B} (m : Async Fs A) (k : A → Async Fs B) fs r :
  bind m k fs = Ok r ↔ ∃ a fs1, m fs = Ok (a, fs1) ∧ k a fs1 = Ok r.
Proof.
  unfold bind. destruct (m fs) as [[a fs1]|e]; split.
  - eauto.
  - by intros (? & ? & [= <- <-] & ?).
  - done.
  - by intros (? & ? & [=] & _).
Qed.

Lemma bind_Err {A B} (m : Async Fs A) (k : A → Async Fs B) fs e :
  bind m k fs = Err e ↔
  m fs = Err e ∨ ∃ a fs1, m fs = Ok (a, fs1) ∧ k a fs1 = Err e.
Proof.
  unfold bind. destruct (m fs) as [[a fs1]|e']; split.
  - intros ?. right. eauto.
  - by intros [[=]|(? & ? & [= <- <-] & ?)].
  - intros [= ->]. by left.
  - by intros [[= ->]|(? & ? & [=] & _)].
Qed.

Lemma fulfils_bind {A B} (m : Async Fs A) (k : A → Async Fs B) :
  fulfils m → (∀ a, fulfils (k a)) → fulfils (bind m k).
Proof.
  intros Hm Hk fs. destruct (Hm fs) as [[a fs1] Hr].
  destruct (Hk a fs1) as [r Hr']. exists r. apply bind_Ok. eauto.
Qed.

Lemma fulfils_for_of {A} (xs : list A) (body : A → Async Fs ()) :
  (∀ x, fulfils (body x)) → fulfils (for_of xs body).
Proof.
  intros Hb. induction xs as [|x xs IH]; simpl.
  - intros fs. by eexists.
  - by apply fulfils_bind.
Qed.
End Monad.

(** ** [dirInit] on any file system *)
Section DirInit.
Context `{NodeEnv} {Fs : Type} `{!FileSystem Fs}.
Variable icons : list IconSetDescriptor.
Variable rev : revision.

(** What [.catch(ignore)] does to one call: [EEXIST] is swallowed and the
    script goes on from the same state, anything else is thrown on. *)
Lemma catch_ignore (m : Async Fs ()) fs :
  catch m ignore fs =
  match m fs with
  | Ok r => Ok r
  | Err e => if decide (code e = "EEXIST") then Ok ((), fs) else Err e
  end.
Proof.
  unfold catch, ignore. destruct (m fs) as [r|e]; [done|].
  by destruct (decide (code e = "EEXIST")).
Qed.

Lemma guarded_bind {A B} (m : Async Fs A) (k : A → Async Fs B) :
  guarded m → (∀ a, guarded (k a)) → guarded (bind m k).
Proof.
  intros Hm Hk fs e [?|(a & fs1 & _ & ?)]%bind_Err; [by apply (Hm fs) | by apply (Hk a fs1)].
Qed.

Lemma guarded_for_of {A} (xs : list A) (body : A → Async Fs ()) :
  (∀ x, guarded (body x)) → guarded (for_of xs body).
Proof.
  intros Hb. induction xs as [|x xs IH]; simpl; [done|]. by apply guarded_bind.
Qed.

Lemma guarded_mkdir p : guarded (catch (mkdir p) ignore).
Proof.
  intros fs e. rewrite catch_ignore. unfold mkdir, effect.
  destruct (fs_mkdir p fs) as [fs'|e'] eqn:Hm; [done|].
  destruct (decide (code e' = "EEXIST")); [done|]. intros [= <-].
  split; [done|]. left. eauto.
Qed.

Lemma guarded_ret {A} (a : A) : guarded (ret (Fs:=Fs) a).
Proof. by intros fs e. Qed.

Lemma guarded_write r filePath str : guarded (write r filePath str).
Proof.
  intros fs e. unfold write. rewrite catch_ignore. unfold writeFile, effect.
  destruct (fs_writeFile _ str fs) as [fs'|e'] eqn:Hm; [done|].
  destruct (decide (code e' = "EEXIST")); [done|]. intros [= <-].
  split; [done|]. right. eauto.
Qed.

Lemma guarded_detached (m : Async Fs ()) : guarded (detached m).
Proof. intros fs e. unfold detached. by destruct (m fs) as [r|e']. Qed.

Lemma dirInit_guarded : guarded (dirInit icons rev).
Proof.
  unfold dirInit. destruct rev;
    repeat first
      [ apply guarded_bind; [|intros ?]
      | apply guarded_for_of; intros ?
      | apply guarded_mkdir
      | apply guarded_write
      | apply guarded_detached
      | apply guarded_ret ].
Qed.

(** A rejection of the first [mkdir] with another code ends [dirInit] *)
Lemma dirInit_propagates fs e :
  fs_mkdir (DIST rev) fs = Err e → code e ≠ "EEXIST" →
  dirInit icons rev fs = Err e.
Proof.
  intros Hm Hc. unfold dirInit.
  destruct rev; apply bind_Err; left; rewrite catch_ignore;
    unfold mkdir, effect; rewrite Hm; by rewrite decide_False.
Qed.

(** On a file system whose [mkdir] and [writeFile] reject with [EEXIST]
    only, [dirInit] always fulfils. *)
Lemma dirInit_fulfils :
  (∀ p fs e, fs_mkdir p fs = Err e → code e = "EEXIST") →
  (∀ p str fs e, fs_writeFile p str fs = Err e → code e = "EEXIST") →
  fulfils (dirInit icons rev).
Proof.
  intros Hmk Hwr.
  assert (∀ p, fulfils (catch (mkdir p) ignore)) as Hm.
  { intros p fs. rewrite catch_ignore. unfold mkdir, effect.
    destruct (fs_mkdir p fs) as [fs'|e] eqn:He; [by eexists|].
    rewrite decide_True by eauto. by eexists. }
  assert (∀ r filePath str, fulfils (write r filePath str)) as Hw.
  { intros r filePath str fs. unfold write. rewrite catch_ignore.
    unfold writeFile, effect.
    destruct (fs_writeFile _ str fs) as [fs'|e] eqn:He; [by eexists|].
    rewrite decide_True by eauto. by eexists. }
  assert (∀ m : Async Fs (), fulfils (detached m)) as Hd.
  { intros m fs. unfold detached. destruct (m fs); by eexists. }
  assert (fulfils (ret (Fs:=Fs) ())) as Hr.
  { intros fs. by eexists. }
  unfold dirInit. destruct rev;
    repeat first
      [ apply fulfils_bind; [|intros ?]
      | apply fulfils_for_of; intros ?
      | apply Hm | apply Hw | apply Hd | apply Hr ].
Qed.
End DirInit.

(** ** [dirInit] on the in-memory file system: running it again *)
Section Rerun.
Context `{NodeEnv}.

Lemma grows_refl x : grows x x.
Proof. by split_and!. Qed.

Lemma grows_trans x y z : grows x y → grows y z → grows x z.
Proof.
  intros (Hd1 & Hf1 & Hn1) (Hd2 & Hf2 & Hn2). split_and!.
  - set_solver.
  - eauto.
  - intros p Hp Hnot. apply Hn2; [eauto | by apply Hn1].
Qed.

Lemma mkdir_Ok p x y :
  Mem.mkdir p x = Ok y → grows x y ∧ p ∈ mem_dirs y.
Proof.
  unfold Mem.mkdir.
  destruct (decide (p ∈ mem_dirs x ∨ is_Some (mem_files x !! p))) as [|Hfree]; [done|].
  destruct (decide (Path.dirname p ∈ mem_dirs x)); [|done].
  intros [= <-]. simpl. split; [|set_solver]. split_and!; simpl.
  - set_solver.
  - done.
  - intros q Hq Hnot. apply not_elem_of_union. split; [|done].
    intros ->%elem_of_singleton. apply Hfree. by right.
Qed.

Lemma mkdir_existing p z :
  p ∈ mem_dirs z ∨ is_Some (mem_files z !! p) →
  ∃ e, Mem.mkdir p z = Err e ∧ code e = "EEXIST".
Proof. intros Hp. unfold Mem.mkdir. rewrite decide_True by done. by eexists. Qed.

Lemma mkdir_Err p x e :
  Mem.mkdir p x = Err e → code e = "EEXIST" →
  p ∈ mem_dirs x ∨ is_Some (mem_files x !! p).
Proof.
  unfold Mem.mkdir.
  destruct (decide (p ∈ mem_dirs x ∨ is_Some (mem_files x !! p))); [done|].
  destruct (decide (Path.dirname p ∈ mem_dirs x)); [done|]. by intros [= <-].
Qed.

Lemma writeFile_Ok p str x y :
  Mem.writeFile p str x = Ok y →
  grows x y ∧ is_Some (mem_files y !! p) ∧ (p ∉ mem_dirs y) ∧
  Path.dirname p ∈ mem_dirs y.
Proof.
  unfold Mem.writeFile, Mem.writable.
  destruct (decide (p ∈ mem_dirs x)); [done|].
  destruct (decide (Path.dirname p ∈ mem_dirs x)); [|done].
  intros [= <-]. simpl. split_and!; try done.
  - split_and!; simpl; [done| |done].
    intros q Hq. destruct (decide (p = q)) as [->|].
    + rewrite lookup_insert_eq. eauto.
    + by rewrite lookup_insert_ne.
  - rewrite lookup_insert_eq. eauto.
Qed.

Lemma writeFile_Err p str x e : Mem.writeFile p str x = Err e → code e ≠ "EEXIST".
Proof.
  unfold Mem.writeFile, Mem.writable.
  destruct (decide (p ∈ mem_dirs x)); [by intros [= <-]|].
  destruct (decide (Path.dirname p ∈ mem_dirs x)); [done | by intros [= <-]].
Qed.

Lemma writeFile_again p str z :
  p ∉ mem_dirs z → Path.dirname p ∈ mem_dirs z →
  ∃ z', Mem.writeFile p str z = Ok z'.
Proof.
  intros Hp Hd. unfold Mem.writeFile, Mem.writable.
  rewrite decide_False, decide_True by done. by eexists.
Qed.

Lemma rerunnable_ret : rerunnable (ret ()).
Proof.
  intros x y [= <-]. split; [apply grows_refl|].
  intros z _. exists z. split; [done | apply grows_refl].
Qed.

Lemma rerunnable_bind (m1 m2 : Async MemFs ()) :
  rerunnable m1 → rerunnable m2 → rerunnable (await m1; m2).
Proof.
  intros H1 H2 x y ([] & x1 & Hx1 & Hy)%bind_Ok.
  destruct (H1 _ _ Hx1) as [Hg1 Hre1]. destruct (H2 _ _ Hy) as [Hg2 Hre2].
  split; [by eapply grows_trans|].
  intros z Hz. destruct (Hre1 z) as (z1 & Hz1 & Hgz1); [by eapply grows_trans|].
  destruct (Hre2 z1) as (z' & Hz' & Hgz'); [by eapply grows_trans|].
  exists z'. split; [|by eapply grows_trans].
  apply bind_Ok. by exists (), z1.
Qed.

Lemma rerunnable_for_of {A} (xs : list A) (body : A → Async MemFs ()) :
  (∀ x, rerunnable (body x)) → rerunnable (for_of xs body).
Proof.
  intros Hb. induction xs as [|x xs IH]; simpl; [apply rerunnable_ret|].
  by apply rerunnable_bind.
Qed.

Lemma rerunnable_mkdir p : rerunnable (catch (mkdir p) ignore).
Proof.
  intros x y. rewrite catch_ignore. unfold mkdir, effect. simpl.
  destruct (Mem.mkdir p x) as [x'|e] eqn:Hm.
  - intros [= <-]. apply mkdir_Ok in Hm as [Hg Hp]. split; [done|].
    intros z (Hd & _ & _). destruct (mkdir_existing p z) as (e & He & Hc);
      [left; set_solver|].
    exists z. split; [|apply grows_refl].
    rewrite catch_ignore. unfold mkdir, effect. simpl. rewrite He.
    by rewrite decide_True.
  - destruct (decide (code e = "EEXIST")) as [Hc|]; [|done]. intros [= <-].
    split; [apply grows_refl|]. intros z (Hd & Hf & _).
    destruct (mkdir_existing p z) as (e' & He' & Hc').
    { destruct (mkdir_Err _ _ _ Hm Hc); [left; set_solver | right; eauto]. }
    exists z. split; [|apply grows_refl].
    rewrite catch_ignore. unfold mkdir, effect. simpl. rewrite He'.
    by rewrite decide_True.
Qed.

Lemma rerunnable_writeFile p str : rerunnable (catch (writeFile p str) ignore).
Proof.
  intros x y. rewrite catch_ignore. unfold writeFile, effect. simpl.
  destruct (Mem.writeFile p str x) as [x'|e] eqn:Hw.
  - intros [= <-]. apply writeFile_Ok in Hw as (Hg & Hf & Hnd & Hpar).
    split; [done|]. intros z (Hd & _ & Hn).
    destruct (writeFile_again p str z) as [z' Hz']; [by apply Hn | set_solver |].
    exists z'. split; [|by apply writeFile_Ok in Hz' as [? _]].
    rewrite catch_ignore. unfold writeFile, effect. simpl. by rewrite Hz'.
  - apply writeFile_Err in Hw. by rewrite decide_False.
Qed.

Lemma rerunnable_write r filePath str : rerunnable (write r filePath str).
Proof. apply rerunnable_writeFile. Qed.

Lemma rerunnable_detached p str : rerunnable (detached (writeFile p str)).
Proof.
  assert (∀ z, ∃ z', detached (writeFile p str) z = Ok ((), z') ∧ grows z z') as Hany.
  { intros z. unfold detached, writeFile, effect. simpl.
    destruct (Mem.writeFile p str z) as [z'|e] eqn:Hw.
    - exists z'. split; [done | by apply writeFile_Ok in Hw as [? _]].
    - exists z. split; [done | apply grows_refl]. }
  intros x y Hxy. destruct (Hany x) as (y' & Hy' & Hg).
  split; [congruence | intros z _; apply Hany].
Qed.

Lemma dirInit_rerunnable icons rev : rerunnable (dirInit icons rev).
Proof.
  unfold dirInit. destruct rev;
    repeat first
      [ apply rerunnable_bind
      | apply rerunnable_for_of; intros ?
      | apply rerunnable_mkdir
      | apply rerunnable_write
      | apply rerunnable_detached
      | apply rerunnable_ret ].
Qed.
End Rerun.

(** What holds of [dirInit] in both revisions.  Every awaited call carries
    [.catch(ignore)]: a rejection with code [EEXIST] is swallowed and the
    script goes on, any other rejection is thrown on.  So [dirInit] never
    rejects with [EEXIST], what it rejects with is the error of the failed
    call, it fulfils whenever [EEXIST] is the only way its calls fail, and a
    second run on the disk that a first run left fulfils again. *)
Theorem dirInit_tolerates_existing `{NodeEnv}
    (icons : list IconSetDescriptor) (rev : revision) :
  (∀ {Fs} `{!FileSystem Fs} (m : Async Fs ()) (fs : Fs),
     catch m ignore fs =
     match m fs with
     | Ok r => Ok r
     | Err e => if decide (code e = "EEXIST") then Ok ((), fs) else Err e
     end) ∧
  (∀ {Fs} `{!FileSystem Fs} (fs : Fs) (e : Error),
     dirInit icons rev fs = Err e → code e ≠ "EEXIST" ∧ raised e) ∧
  (∀ {Fs} `{!FileSystem Fs} (fs : Fs) (e : Error),
     fs_mkdir (DIST rev) fs = Err e → code e ≠ "EEXIST" →
     dirInit icons rev fs = Err e) ∧
  (∀ {Fs} `{!FileSystem Fs},
     (∀ p fs e, fs_mkdir p fs = Err e → code e = "EEXIST") →
     (∀ p str fs e, fs_writeFile p str fs = Err e → code e = "EEXIST") →
     ∀ fs : Fs, ∃ fs', dirInit icons rev fs = Ok ((), fs')) ∧
  (∀ d d' : MemFs,
     dirInit icons rev d = Ok ((), d') →
     ∃ d'', dirInit icons rev d' = Ok ((), d'')).
Proof.
  split_and!.
  - intros. apply catch_ignore.
  - intros Fs ? fs e. apply dirInit_guarded.
  - intros Fs ? fs e. apply dirInit_propagates.
  - intros Fs ? Hmk Hwr fs. destruct (dirInit_fulfils icons rev Hmk Hwr fs) as [[[] fs'] Hr].
    by exists fs'.
  - intros d d' Hrun. destruct (dirInit_rerunnable icons rev _ _ Hrun) as [_ Hre].
    destruct (Hre d' (grows_refl d')) as (d'' & Hd'' & _). by exists d''.
Qed.

Example dirInit_tolerates_existing_on_disks :
  (∃ e, dirInit [Disks.fa] build_js Disks.bare = Err e ∧ code e = "ENOENT" ∧
        code e ≠ "EEXIST") ∧
  (∃ d' d'', dirInit [Disks.fa] part_000 (Disks.disk []) = Ok ((), d') ∧
             dirInit [Disks.fa] part_000 d' = Ok ((), d'')).
Proof.
  split.
  - assert (Hrun : dirInit [Disks.fa] build_js Disks.bare
                   = Err (Mem.error "ENOENT" "/react-icons/lib"))
      by (vm_compute; reflexivity).
    eexists. split_and!; [exact Hrun | reflexivity |].
    destruct (dirInit_tolerates_existing [Disks.fa] build_js) as (_ & Hg & _).
    exact (proj1 (Hg _ _ _ _ Hrun)).
  - assert (Hrun : ∃ d', dirInit [Disks.fa] part_000 (Disks.disk []) = Ok ((), d'))
      by (eexists; vm_compute; reflexivity).
    destruct Hrun as [d' Hrun].
    destruct (dirInit_tolerates_existing [Disks.fa] part_000) as (_ & _ & _ & _ & Hre).
    destruct (Hre _ _ Hrun) as [d'' Hd'']. by exists d', d''.
Defined.

(** ** [writeIconModule]: the loop over the files *)
Section Loop.
Context `{NodeEnv} {Fs : Type} `{!FileSystem Fs}.
Variable rev : revision.
Variable icon : IconSetDescriptor.

(** One iteration *)
Lemma iconLoop_cons file files' ex fs :
  iconLoop rev icon (file :: files') ex fs =
  (const svgStr := await readFile file;
   if decide (resolvedName icon file ∈ ex) then iconLoop rev icon files' ex
   else await emitRows rev icon file svgStr;
        iconLoop rev icon files' (ex ∪ {[resolvedName icon file]} ∪ {[file]})) fs.
Proof.
  cbn [iconLoop]. unfold bind at 1 5. destruct (readFile file fs) as [[svgStr fs0]|e]; [|done].
  destruct (decide (resolvedName icon file ∈ ex)); [done|].
  unfold emitRows. cbv zeta. unfold bind.
  repeat (destruct (appendFile _ _ _) as [[[] ?]|?]; [|done]). done.
Qed.

(** An iteration that hits [continue] changes nothing *)
Lemma iconLoop_skip file files' ex fs svgStr :
  resolvedName icon file ∈ ex →
  fs_readFile file fs = Ok svgStr →
  iconLoop rev icon (file :: files') ex fs = iconLoop rev icon files' ex fs.
Proof.
  intros Hin Hread. rewrite iconLoop_cons. unfold bind, readFile, query.
  rewrite Hread. by rewrite decide_True.
Qed.

(** An iteration that does not, and fulfils, emits the rows and adds the
    name and the path *)
Lemma iconLoop_step file files' ex fs ex' fs' :
  resolvedName icon file ∉ ex →
  iconLoop rev icon (file :: files') ex fs = Ok (ex', fs') →
  ∃ svgStr fs1,
    fs_readFile file fs = Ok svgStr ∧
    emitRows rev icon file svgStr fs = Ok ((), fs1) ∧
    iconLoop rev icon files' (ex ∪ {[resolvedName icon file]} ∪ {[file]}) fs1
      = Ok (ex', fs').
Proof.
  intros Hnot. rewrite iconLoop_cons.
  intros (svgStr & fs0 & Hread & Hrest)%bind_Ok.
  rewrite decide_False in Hrest by done.
  apply bind_Ok in Hrest as ([] & fs1 & Hemit & Hrest).
  unfold readFile, query in Hread.
  destruct (fs_readFile file fs) as [s0|] eqn:Hr; [|done].
  injection Hread as -> ->. eauto.
Qed.

Lemma iconLoop_mono files ex fs ex' fs' :
  iconLoop rev icon files ex fs = Ok (ex', fs') → ex ⊆ ex'.
Proof.
  revert ex fs. induction files as [|file files IH]; intros ex fs.
  - by intros [= <- _].
  - destruct (decide (resolvedName icon file ∈ ex)) as [Hin|Hnot].
    + rewrite iconLoop_cons. intros (svgStr & fs0 & _ & Hrest)%bind_Ok.
      rewrite decide_True in Hrest by done. by eapply IH.
    + intros (? & fs1 & _ & _ & Hrest)%iconLoop_step; [|done].
      apply IH in Hrest. set_solver.
Qed.

Lemma iconLoop_app l1 l2 ex fs :
  iconLoop rev icon (l1 ++ l2) ex fs =
  match iconLoop rev icon l1 ex fs with
  | Ok (ex1, fs1) => iconLoop rev icon l2 ex1 fs1
  | Err e => Err e
  end.
Proof.
  revert ex fs. induction l1 as [|file l1 IH]; intros ex fs; [done|].
  rewrite <-app_comm_cons, !iconLoop_cons. unfold bind at 1 3.
  destruct (readFile file fs) as [[svgStr fs0]|e]; [|done].
  destruct (decide (resolvedName icon file ∈ ex)); [apply IH|].
  unfold bind. destruct (emitRows _ _ _ _ _) as [[[] ?]|?]; [apply IH | done].
Qed.
End Loop.

(** C9.  An iteration that is not skipped and fulfils leaves both the
    resolved name and the path of its file in the set [exists]; a later file
    whose resolved name is that path then hits [continue], and its
    iteration changes nothing.  This does happen: with the icon set
    [Disks.fa] and the files [FaB] and [icons/b.svg], the second file
    resolves to the fresh name [FaB] and no row is written for it. *)
Theorem seen_set_holds_names_and_paths :
  (∀ (env : NodeEnv) (Fs : Type) (F : FileSystem Fs) (rev : revision)
     (icon : IconSetDescriptor) (l1 : list string) (file : string)
     (l2 : list string) (ex : gset string) (fs : Fs) ex1 fs1 ex' fs',
     iconLoop rev icon l1 ex fs = Ok (ex1, fs1) →
     resolvedName icon file ∉ ex1 →
     iconLoop rev icon (l1 ++ file :: l2) ex fs = Ok (ex', fs') →
     resolvedName icon file ∈ ex' ∧ file ∈ ex' ∧
     ∀ l2a later l2b ex2 fs2 svgStr,
       l2 = l2a ++ later :: l2b →
       resolvedName icon later = file →
       iconLoop rev icon (l1 ++ file :: l2a) ex fs = Ok (ex2, fs2) →
       fs_readFile later fs2 = Ok svgStr →
       iconLoop rev icon (later :: l2b) ex2 fs2 = iconLoop rev icon l2b ex2 fs2) ∧
  (∃ (first later : string) (d d' : MemFs),
     fs_glob (files Disks.fa) d = Ok [first; later] ∧
     resolvedName Disks.fa later = first ∧
     resolvedName Disks.fa first ≠ resolvedName Disks.fa later ∧
     (await dirInit [Disks.fa] build_js; writeIconModule build_js Disks.fa) d
       = Ok ((), d') ∧
     mem_files d' !! "/react-icons/lib/fa/index.mjs" =
       Some (AUTO_GENERATED +:+ "import { GenIcon } from '../iconBase';" +:+ LF +:+
             js_text (generateIconRow build_js (resolvedName Disks.fa first)
                        (convertIconData Samples.arrow_left_svg) (Some "module")))).
Proof.
  split.
  - intros env Fs F rev icon l1 file l2 ex fs ex1 fs1 ex' fs' H1 Hfresh Hrun.
    assert (Hafter : ∀ l ex2 fs2,
              iconLoop rev icon (l1 ++ file :: l) ex fs = Ok (ex2, fs2) →
              resolvedName icon file ∈ ex2 ∧ file ∈ ex2).
    { intros l ex2 fs2. rewrite iconLoop_app, H1.
      intros (? & ? & _ & _ & Hrest)%iconLoop_step; [|done].
      apply iconLoop_mono in Hrest. set_solver. }
    destruct (Hafter _ _ _ Hrun) as [Hname Hfile]. split_and!; [done..|].
    intros l2a later l2b ex2 fs2 svgStr -> Hlater Hmid Hread.
    apply iconLoop_skip with svgStr; [|done].
    rewrite Hlater. by apply Hafter in Hmid as [_ ?].
  - exists "FaB", "icons/b.svg", (Disks.disk ["FaB"; "icons/b.svg"]). eexists.
    split_and!; [reflexivity | reflexivity | discriminate | |].
    + vm_compute. reflexivity.
    + vm_compute. reflexivity.
Qed.

Lemma seen_set_holds_names_and_paths_witness :
  ∃ ex' d', iconLoop build_js Disks.fa ["FaB"; "icons/b.svg"] ∅
              (Disks.built ["FaB"; "icons/b.svg"]) = Ok (ex', d') ∧
            resolvedName Disks.fa "FaB" ∈ ex' ∧ "FaB" ∈ ex'.
Proof.
  assert (Hrun : ∃ ex' d', iconLoop build_js Disks.fa ([] ++ "FaB" :: ["icons/b.svg"]) ∅
                             (Disks.built ["FaB"; "icons/b.svg"]) = Ok (ex', d'))
    by (eexists _, _; vm_compute; reflexivity).
  destruct Hrun as (ex' & d' & Hrun). exists ex', d'. split; [exact Hrun|].
  destruct (proj1 seen_set_holds_names_and_paths ref_env MemFs mem_fs build_js
              Disks.fa [] "FaB" ["icons/b.svg"] ∅ _ ∅ _ ex' d' eq_refl
              (not_elem_of_empty _) Hrun) as (Hn & Hf & _).
  by split.
Defined.

(** C3 at its failing input.  [icons/b.svg] and [more/b.svg] resolve to the
    same name [FaB], and [icons/b.svg] is the first of them; but [FaB] is
    also the path of the file processed before, so neither produces a row:
    the three files of the set hold the rows of [FaFaB] only. *)
Theorem first_of_same_named_files_skipped :
  let found := ["FaB"; "icons/b.svg"; "more/b.svg"] in
  let data := convertIconData Samples.arrow_left_svg in
  map (resolvedName Disks.fa) found = ["FaFaB"; "FaB"; "FaB"] ∧
  ∃ d', (await dirInit [Disks.fa] build_js; writeIconModule build_js Disks.fa)
          (Disks.disk found) = Ok ((), d') ∧
    mem_files d' !! "/react-icons/lib/fa/index.mjs" =
      Some (AUTO_GENERATED +:+ "import { GenIcon } from '../iconBase';" +:+ LF +:+
            js_text (generateIconRow build_js "FaFaB" data (Some "module"))) ∧
    mem_files d' !! "/react-icons/lib/fa/index.js" =
      Some (AUTO_GENERATED +:+ "const { GenIcon } = require('../iconBase')" +:+ LF +:+
            js_text (generateIconRow build_js "FaFaB" data (Some "common"))) ∧
    mem_files d' !! "/react-icons/lib/fa/index.d.ts" =
      Some ("import { IconData, IconType } from '../iconBase'" +:+ LF +:+
            AUTO_GENERATED +:+
            js_text (generateIconRow build_js "FaFaB" data (Some "dts"))).
Proof.
  intros found data. split; [reflexivity|]. eexists.
  split_and!; vm_compute; reflexivity.
Qed.

(** ** [writeIconsManifest] on the in-memory file system *)
Lemma mem_writeFile_files p str x y :
  Mem.writeFile p str x = Ok y → mem_files y = <[p := str]> (mem_files x).
Proof.
  unfold Mem.writeFile. destruct (Mem.writable p x); [done|]. by intros [= <-].
Qed.

(** C7.  The two manifest files hold the serialization of one sequence of
    entries: one entry per descriptor, in the order of the descriptors, each
    made of the five fields [id], [name], [projectUrl], [license] and
    [licenseUrl] with the descriptor's values -- so [files] and [formatter]
    are not among its keys. *)
Theorem manifest_entries `{NodeEnv} (icons : list IconSetDescriptor)
    (rev : revision) (d d' : MemFs) :
  let mjs := path_resolve [manifestDir rev; "iconsManifest.mjs"] in
  let js := path_resolve [manifestDir rev; "iconsManifest.js"] in
  let dts := path_resolve [manifestDir rev; "iconsManifest.d.ts"] in
  mjs ≠ js → mjs ≠ dts → js ≠ dts →
  writeIconsManifest icons rev d = Ok ((), d') →
  ∃ entries : list JsObject,
    mem_files d' !! mjs
      = Some ("export const IconsManifest = " +:+ JSON_stringify_indent entries) ∧
    mem_files d' !! js
      = Some ("module.exports.IconsManifest = " +:+ JSON_stringify_indent entries) ∧
    length entries = length icons ∧
    (∀ i icon, icons !! i = Some icon →
       entries !! i = Some [("id", id icon); ("name", name icon);
                            ("projectUrl", projectUrl icon);
                            ("license", license icon);
                            ("licenseUrl", licenseUrl icon)]) ∧
    (∀ entry, entry ∈ entries →
       object_keys entry = ["id"; "name"; "projectUrl"; "license"; "licenseUrl"] ∧
       ("files" ∉ object_keys entry) ∧ ("formatter" ∉ object_keys entry)).
Proof.
  intros mjs js dts Hmj Hmd Hjd. unfold writeIconsManifest. cbv zeta.
  intros ([] & d1 & H1 & Hrest)%bind_Ok.
  apply bind_Ok in Hrest as ([] & d2 & H2 & H3).
  unfold writeFile, copyFile, effect in *. simpl in *.
  destruct (Mem.writeFile _ _ d) as [d1'|] eqn:Hw1; [|done]. injection H1 as <-.
  destruct (Mem.writeFile _ _ d1') as [d2'|] eqn:Hw2; [|done]. injection H2 as <-.
  destruct (Mem.copyFile _ _ d2') as [d3|] eqn:Hw3; [|done]. injection H3 as <-.
  unfold Mem.copyFile in Hw3. destruct (Mem.readFile _ d2') as [txt|]; [|done].
  apply mem_writeFile_files in Hw1, Hw2, Hw3.
  exists (writeObj icons). split_and!.
  - rewrite Hw3, Hw2, Hw1. fold mjs js dts.
    rewrite lookup_insert_ne, lookup_insert_ne by done. apply lookup_insert_eq.
  - rewrite Hw3, Hw2. fold mjs js dts.
    rewrite lookup_insert_ne by done. apply lookup_insert_eq.
  - unfold writeObj. apply length_map.
  - intros i icon Hi. unfold writeObj. rewrite list_lookup_fmap, Hi. done.
  - intros entry (icon & -> & _)%list_elem_of_fmap. split_and!; [done|..];
      apply (bool_decide_unpack _); reflexivity.
Qed.

Lemma manifest_entries_witness :
  ∃ d' entries,
    writeIconsManifest [Disks.fa] build_js (Disks.built []) = Ok ((), d') ∧
    mem_files d' !! "/react-icons/lib/iconsManifest.mjs"
      = Some ("export const IconsManifest = " +:+ JSON_stringify_indent entries) ∧
    entries !! 0 = Some [("id", "fa"); ("name", "Font Awesome");
                         ("projectUrl", "https://fontawesome.com/");
                         ("license", "CC BY 4.0 License");
                         ("licenseUrl", "https://creativecommons.org/licenses/by/4.0/")].
Proof.
  assert (Hrun : ∃ d', writeIconsManifest [Disks.fa] build_js (Disks.built [])
                       = Ok ((), d'))
    by (eexists; vm_compute; reflexivity).
  destruct Hrun as [d' Hrun].
  destruct (manifest_entries [Disks.fa] build_js (Disks.built []) d')
    as (entries & Hmjs & _ & _ & Hent & _);
    [discriminate | discriminate | discriminate | exact Hrun |].
  exists d', entries. split_and!; [exact Hrun | exact Hmjs |].
  exact (Hent 0 Disks.fa eq_refl).
Defined.

(** C8 at its failing input, in the revision [part_000].  The write of
    [.gitignore] is started and not awaited: where it is rejected, here
    with [EISDIR], the rejection does not reach [dirInit], which fulfils
    with nothing written there. *)
Theorem unawaited_write_failure_is_dropped :
  let p := path_resolve [DIST part_000; ".gitignore"] in
  p = "/react-icons/.gitignore" ∧
  (∃ e, fs_writeFile p (gitignore [Disks.fa]) Disks.gitignore_dir = Err e ∧
        code e = "EISDIR") ∧
  ∃ d', dirInit [Disks.fa] part_000 Disks.gitignore_dir = Ok ((), d') ∧
        mem_files d' !! p = None.
Proof.
  intros p. split_and!; [reflexivity | by eexists |].
  eexists. split; vm_compute; reflexivity.
Qed.

(** * Further properties of the script *)

(** ** Parsing *)
Section MoreParsing.
Context `{NodeEnv}.





(** ** Objects built by [reduce] *)

Lemma obj_set_keys_eq (o : JsObject) k v :
  object_keys (obj_set o k v) =
  if decide (k ∈ object_keys o) then object_keys o else object_keys o ++ [k].
Proof.
  unfold object_keys. induction o as [|[k' v'] o IH].
  - rewrite decide_False by apply not_elem_of_nil. done.
  - cbn [obj_set]. destruct (decide (k' = k)) as [->|Hne].
    + clear IH. rewrite decide_True by (rewrite fmap_cons; left). done.
    + rewrite !fmap_cons, IH. cbn [fst].
      destruct (decide (k ∈ o.*1)) as [Hin|Hnot].
      * rewrite decide_True by (by right). done.
      * rewrite decide_False; [done|]. by intros [?|?]%elem_of_cons.
Qed.


Lemma reduce_invariant attribs names acc :
  NoDup (object_keys acc) →
  NoDup (object_keys (foldl (reducer attribs) acc names)) ∧
  length (foldl (reducer attribs) acc names) ≤ length acc + length names.
Proof.
  revert acc. induction names as [|n names IH]; intros acc Hnd; simpl.
  - split; [done | lia].
  - assert (NoDup (object_keys (reducer attribs acc n)) ∧
            length (reducer attribs acc n) ≤ S (length acc)) as [Hnd' Hlen].
    { unfold reducer. destruct (obj_get attribs n) as [v|]; [|split; [done | lia]].
      assert (length (object_keys (obj_set acc (camelcase n false) v))
              ≤ S (length (object_keys acc))) as Hl.
      { rewrite obj_set_keys_eq. case_decide; [lia|]. rewrite length_app. simpl. lia. }
      unfold object_keys in Hl. rewrite !length_fmap in Hl. split; [|done].
      rewrite obj_set_keys_eq. case_decide; [done|].
      apply NoDup_app. split_and!; [done | | apply NoDup_singleton].
      intros x Hx ->%list_elem_of_singleton. done. }
    destruct (IH _ Hnd') as [? ?]. split; [done | lia].
Qed.

(** X2.  The emitted attribute object is a well-formed object: no key
    occurs twice, and it has at most as many entries as the element has
    attributes. *)
Theorem attrConverter_keys_unique (attribs out : JsObject) (tagName : string) :
  attrConverter (Some attribs) tagName = Some out →
  NoDup (object_keys out) ∧ length out ≤ length attribs.
Proof.
  rewrite attrConverter_Some. intros [= <-].
  destruct (reduce_invariant attribs
              (filter (λ name, name ∉ dropped tagName) (object_keys attribs)) [])
    as [Hnd Hlen]; [apply NoDup_nil_2|].
  split; [done|]. simpl in Hlen.
  etrans; [exact Hlen|]. etrans; [apply length_filter|].
  unfold object_keys. by rewrite length_fmap.
Qed.



End MoreParsing.


Lemma attrConverter_keys_unique_witness :
  NoDup (object_keys [("fillOpacity", "1")]) ∧ length [("fillOpacity", "1")] ≤ 2.
Proof.
  apply (attrConverter_keys_unique
           [("fill-opacity", "0.5"); ("fill_opacity", "1")] _ "path").
  reflexivity.
Defined.


(** ** Strings *)
Lemma string_app_assoc (a b c : string) : (a +:+ b) +:+ c = a +:+ (b +:+ c).
Proof.
  induction a as [|x a IH]; [done|].
  change (String x ((a +:+ b) +:+ c) = String x (a +:+ (b +:+ c))). by rewrite IH.
Qed.

Lemma string_app_nil_r (a : string) : a +:+ EmptyString = a.
Proof.
  induction a as [|x a IH]; [done|].
  change (String x (a +:+ EmptyString) = String x a). by rewrite IH.
Qed.

Lemma string_concat_cons (x : string) (l : list string) :
  String.concat EmptyString (x :: l) = x +:+ String.concat EmptyString l.
Proof. destruct l; [by rewrite string_app_nil_r | done]. Qed.

(** ** The in-memory file system, call by call *)
Section MemCalls.
Context `{NodeEnv}.

Lemma mem_writeFile_Ok p str x y :
  Mem.writeFile p str x = Ok y →
  mem_dirs y = mem_dirs x ∧ mem_glob y = mem_glob x ∧
  mem_files y = <[p := str]> (mem_files x).
Proof.
  unfold Mem.writeFile. destruct (Mem.writable p x); [done|]. by intros [= <-].
Qed.

Lemma mem_appendFile_Ok p str x y :
  Mem.appendFile p str x = Ok y →
  mem_dirs y = mem_dirs x ∧ mem_glob y = mem_glob x ∧
  mem_files y = <[p := content x p +:+ str]> (mem_files x).
Proof.
  unfold Mem.appendFile. destruct (Mem.writable p x); [done|]. by intros [= <-].
Qed.

Lemma mem_copyFile_Ok src dst x y :
  Mem.copyFile src dst x = Ok y →
  ∃ str, mem_files x !! src = Some str ∧
    mem_dirs y = mem_dirs x ∧ mem_glob y = mem_glob x ∧
    mem_files y = <[dst := str]> (mem_files x).
Proof.
  unfold Mem.copyFile, Mem.readFile.
  destruct (mem_files x !! src) as [str|] eqn:Hsrc; [|done].
  intros Hw%mem_writeFile_Ok. by exists str.
Qed.

Lemma mem_mkdir_files p x y :
  Mem.mkdir p x = Ok y → mem_files y = mem_files x ∧ mem_glob y = mem_glob x.
Proof.
  unfold Mem.mkdir. repeat case_decide; try done. by intros [= <-].
Qed.

Lemma mem_readFile_Ok p x str :
  Mem.readFile p x = Ok str → mem_files x !! p = Some str.
Proof. unfold Mem.readFile. by destruct (mem_files x !! p); intros [= <-]. Qed.

Lemma content_insert_eq (x y : MemFs) p str :
  mem_files y = <[p := str]> (mem_files x) → content y p = str.
Proof. intros Hy. unfold content. by rewrite Hy, lookup_insert_eq. Qed.

Lemma content_insert_ne (x y : MemFs) p q str :
  mem_files y = <[p := str]> (mem_files x) → p ≠ q → content y q = content x q.
Proof. intros Hy Hne. unfold content. by rewrite Hy, lookup_insert_ne. Qed.

(** *** What a computation may change *)

Lemma confined_ret {A} P (a : A) : confined P (ret a).
Proof. by intros x a' y [= _ <-]. Qed.

Lemma confined_bind {A B} P (m : Async MemFs A) (k : A → Async MemFs B) :
  confined P m → (∀ a, confined P (k a)) → confined P (bind m k).
Proof.
  intros Hm Hk x b y (a & x1 & H1 & H2)%bind_Ok.
  destruct (Hm _ _ _ H1) as (Hd1 & Hg1 & Hf1).
  destruct (Hk _ _ _ _ H2) as (Hd2 & Hg2 & Hf2).
  split_and!; [congruence | congruence |].
  intros q Hq. by rewrite Hf2, Hf1.
Qed.

Lemma confined_weaken {A} (P Q : string → Prop) (m : Async MemFs A) :
  (∀ q, P q → Q q) → confined P m → confined Q m.
Proof.
  intros HPQ Hm x a y Hrun. destruct (Hm _ _ _ Hrun) as (? & ? & Hf).
  split_and!; [done..|]. intros q Hq. apply Hf. eauto.
Qed.

Lemma confined_for_of {A} P (xs : list A) (body : A → Async MemFs ()) :
  (∀ x, confined P (body x)) → confined P (for_of xs body).
Proof.
  intros Hb. induction xs as [|x xs IH]; simpl; [apply confined_ret|].
  by apply confined_bind.
Qed.

Lemma confined_appendFile p str : confined (λ q, q = p) (appendFile p str).
Proof.
  intros x [] y. unfold appendFile, effect. simpl.
  destruct (Mem.appendFile p str x) as [y'|] eqn:Ha; [|done]. intros [= <-].
  apply mem_appendFile_Ok in Ha as (? & ? & Hf). split_and!; [done..|].
  intros q Hq. rewrite Hf. apply lookup_insert_ne. congruence.
Qed.

Lemma confined_writeFile p str : confined (λ q, q = p) (writeFile p str).
Proof.
  intros x [] y. unfold writeFile, effect. simpl.
  destruct (Mem.writeFile p str x) as [y'|] eqn:Ha; [|done]. intros [= <-].
  apply mem_writeFile_Ok in Ha as (? & ? & Hf). split_and!; [done..|].
  intros q Hq. rewrite Hf. apply lookup_insert_ne. congruence.
Qed.

Lemma confined_copyFile src dst : confined (λ q, q = dst) (copyFile src dst).
Proof.
  intros x [] y. unfold copyFile, effect. simpl.
  destruct (Mem.copyFile src dst x) as [y'|] eqn:Ha; [|done]. intros [= <-].
  apply mem_copyFile_Ok in Ha as (str & _ & ? & ? & Hf). split_and!; [done..|].
  intros q Hq. rewrite Hf. apply lookup_insert_ne. congruence.
Qed.

Lemma confined_readFile P p : confined P (readFile p).
Proof.
  intros x a y. unfold readFile, query. simpl.
  by destruct (Mem.readFile p x); intros [= _ <-].
Qed.

Lemma confined_getIconFiles P icon : confined P (getIconFiles icon).
Proof. by intros x a y [= _ <-]. Qed.

(** *** What a computation keeps *)

Lemma append_only_ret {A} (a : A) : append_only (ret a).
Proof.
  intros x a' y [= _ <-] p str Hp. exists EmptyString.
  by rewrite string_app_nil_r.
Qed.

Lemma append_only_bind {A B} (m : Async MemFs A) (k : A → Async MemFs B) :
  append_only m → (∀ a, append_only (k a)) → append_only (bind m k).
Proof.
  intros Hm Hk x b y (a & x1 & H1 & H2)%bind_Ok p str Hp.
  destruct (Hm _ _ _ H1 _ _ Hp) as [more1 Hp1].
  destruct (Hk _ _ _ _ H2 _ _ Hp1) as [more2 Hp2].
  exists (more1 +:+ more2). by rewrite <-string_app_assoc.
Qed.

Lemma append_only_for_of {A} (xs : list A) (body : A → Async MemFs ()) :
  (∀ x, append_only (body x)) → append_only (for_of xs body).
Proof.
  intros Hb. induction xs as [|x xs IH]; simpl; [apply append_only_ret|].
  by apply append_only_bind.
Qed.

Lemma append_only_appendFile p str : append_only (appendFile p str).
Proof.
  intros x [] y. unfold appendFile, effect. simpl.
  destruct (Mem.appendFile p str x) as [y'|] eqn:Ha; [|done]. intros [= <-].
  apply mem_appendFile_Ok in Ha as (_ & _ & Hf). intros q old Hq. rewrite Hf.
  destruct (decide (p = q)) as [->|Hne].
  - rewrite lookup_insert_eq. unfold content. rewrite Hq. by eexists.
  - rewrite lookup_insert_ne by done. exists EmptyString.
    by rewrite string_app_nil_r.
Qed.

Lemma append_only_readFile p : append_only (readFile p).
Proof.
  intros x a y. unfold readFile, query. simpl.
  destruct (Mem.readFile p x); intros [= _ <-] q old Hq.
  exists EmptyString. by rewrite string_app_nil_r.
Qed.

Lemma append_only_getIconFiles icon : append_only (getIconFiles icon).
Proof.
  intros x a y [= _ <-] q old Hq. exists EmptyString. by rewrite string_app_nil_r.
Qed.
End MemCalls.

(** ** The rows of an icon set *)
Section Rows.
Context `{NodeEnv}.
Variable rev : revision.
Variable icon : IconSetDescriptor.

Lemma emitted_elem_of files seen f : f ∈ emitted icon files seen → f ∈ files.
Proof.
  revert seen. induction files as [|file files IH]; intros seen; simpl; [done|].
  case_decide.
  - intros ?%IH. by right.
  - intros [->|?%IH]%elem_of_cons; [left | by right].
Qed.




(** One iteration's three appends *)
Lemma emitRows_Ok file svgStr x y :
  NoDup ((λ r, iconFile rev icon r.1) <$> rowFiles) →
  emitRows rev icon file svgStr x = Ok ((), y) →
  ∀ out type, (out, type) ∈ rowFiles →
    content y (iconFile rev icon out) =
    content x (iconFile rev icon out) +:+
    js_text (generateIconRow rev (resolvedName icon file)
               (convertIconData svgStr) (Some type)).
Proof.
  intros Hnd. unfold emitRows. cbv zeta.
  intros ([] & x1 & H1 & Hrest)%bind_Ok.
  apply bind_Ok in Hrest as ([] & x2 & H2 & H3).
  unfold appendFile, effect in *. simpl in *.
  destruct (Mem.appendFile _ _ x) as [x1'|] eqn:Ha1; [|done]. injection H1 as <-.
  destruct (Mem.appendFile _ _ x1') as [x2'|] eqn:Ha2; [|done]. injection H2 as <-.
  destruct (Mem.appendFile _ _ x2') as [y'|] eqn:Ha3; [|done]. injection H3 as <-.
  apply mem_appendFile_Ok in Ha1 as (_ & _ & Hf1).
  apply mem_appendFile_Ok in Ha2 as (_ & _ & Hf2).
  apply mem_appendFile_Ok in Ha3 as (_ & _ & Hf3).
  fold (iconFile rev icon "index.mjs") in *.
  fold (iconFile rev icon "index.js") in *.
  fold (iconFile rev icon "index.d.ts") in *.
  unfold rowFiles in Hnd. simpl in Hnd.
  apply NoDup_cons in Hnd as [Hn1 Hnd]. apply NoDup_cons in Hnd as [Hn2 _].
  apply not_elem_of_cons in Hn1 as [Hmj Hmd%not_elem_of_cons].
  destruct Hmd as [Hmd _]. apply not_elem_of_cons in Hn2 as [Hjd _].
  intros out type Hin. unfold rowFiles in Hin.
  apply elem_of_cons in Hin as [[= -> ->]|Hin];
    [|apply elem_of_cons in Hin as [[= -> ->]|Hin];
      [|apply list_elem_of_singleton in Hin as [= -> ->]]].
  - rewrite (content_insert_ne _ _ _ _ _ Hf3) by done.
    rewrite (content_insert_ne _ _ _ _ _ Hf2) by done.
    by rewrite (content_insert_eq _ _ _ _ Hf1).
  - rewrite (content_insert_ne _ _ _ _ _ Hf3) by done.
    rewrite (content_insert_eq _ _ _ _ Hf2).
    by rewrite (content_insert_ne _ _ _ _ _ Hf1) by done.
  - rewrite (content_insert_eq _ _ _ _ Hf3).
    rewrite (content_insert_ne _ _ _ _ _ Hf2) by done.
    by rewrite (content_insert_ne _ _ _ _ _ Hf1) by done.
Qed.

Lemma confined_emitRows file svgStr :
  confined (λ q, q ∈ (λ r, iconFile rev icon r.1) <$> rowFiles)
    (emitRows rev icon file svgStr).
Proof.
  unfold emitRows. cbv zeta.
  repeat first
    [ apply confined_bind; [|intros ?]
    | eapply confined_weaken; [|apply confined_appendFile];
      intros q ->; unfold rowFiles, iconFile; simpl; set_solver ].
Qed.

Lemma append_only_emitRows file svgStr : append_only (emitRows rev icon file svgStr).
Proof.
  unfold emitRows. cbv zeta.
  repeat first [ apply append_only_bind; [|intros ?] | apply append_only_appendFile ].
Qed.

Lemma confined_iconLoop files seen :
  confined (λ q, q ∈ (λ r, iconFile rev icon r.1) <$> rowFiles)
    (iconLoop rev icon files seen).
Proof.
  revert seen. induction files as [|file files IH]; intros seen.
  - apply confined_ret.
  - intros x a y. rewrite iconLoop_cons. revert x a y.
    apply confined_bind; [apply confined_readFile|]. intros svgStr.
    case_decide; [apply IH|].
    apply confined_bind; [apply confined_emitRows | intros ?; apply IH].
Qed.

Lemma append_only_iconLoop files seen : append_only (iconLoop rev icon files seen).
Proof.
  revert seen. induction files as [|file files IH]; intros seen.
  - apply append_only_ret.
  - intros x a y. rewrite iconLoop_cons. revert x a y.
    apply append_only_bind; [apply append_only_readFile|]. intros svgStr.
    case_decide; [apply IH|].
    apply append_only_bind; [apply append_only_emitRows | intros ?; apply IH].
Qed.

(** The loop of [writeIconModule] appends to each of the three files of the
    icon set, in the order of the files, one row for every file that is not
    skipped, computed from what the file held; what the three files held
    before stays in front. *)
Lemma iconLoop_rows (files : list string) (seen seen' : gset string)
    (d d' : MemFs) :
  NoDup ((λ r, iconFile rev icon r.1) <$> rowFiles) →
  (∀ f, f ∈ files → f ∉ (λ r, iconFile rev icon r.1) <$> rowFiles) →
  iconLoop rev icon files seen d = Ok (seen', d') →
  ∀ out type, (out, type) ∈ rowFiles →
    content d' (iconFile rev icon out) =
    content d (iconFile rev icon out) +:+
    String.concat EmptyString
      ((λ f, js_text (generateIconRow rev (resolvedName icon f)
                        (convertIconData (content d f)) (Some type)))
         <$> emitted icon files seen).
Proof.
  intros Hnd. revert seen d. induction files as [|file files IH];
    intros seen d Hin Hrun out type Hout.
  - injection Hrun as _ <-. simpl. by rewrite string_app_nil_r.
  - rewrite iconLoop_cons in Hrun.
    apply bind_Ok in Hrun as (svgStr & d0 & Hread & Hrest).
    unfold readFile, query in Hread. simpl in Hread.
    destruct (Mem.readFile file d) as [s0|] eqn:Hr; [|done].
    injection Hread as ? ?. subst s0 d0. apply mem_readFile_Ok in Hr.
    assert (Hfiles : ∀ f, f ∈ files → f ∉ (λ r, iconFile rev icon r.1) <$> rowFiles).
    { intros f ?. apply Hin. by right. }
    cbn [emitted]. destruct (decide (resolvedName icon file ∈ seen)) as [Hs|Hs].
    + by apply IH.
    + apply bind_Ok in Hrest as ([] & d1 & Hemit & Hrest).
      rewrite (IH _ _ Hfiles Hrest out type Hout).
      rewrite (emitRows_Ok _ _ _ _ Hnd Hemit out type Hout).
      rewrite string_app_assoc. f_equal. rewrite fmap_cons, string_concat_cons.
      unfold content at 2. rewrite Hr. cbn [default]. do 2 f_equal.
      apply list_fmap_ext. intros i f Hf. do 3 f_equal.
      apply list_elem_of_lookup_2, emitted_elem_of, Hfiles in Hf.
      destruct (confined_emitRows _ _ _ _ _ Hemit) as (_ & _ & Hframe).
      unfold content. by rewrite Hframe.
Qed.


(** X6.  [writeIconModule] only appends: it leaves the directories alone,
    keeps every file with its old content in front, and changes no file but
    the two barrels and the three files of its icon set. *)
Theorem writeIconModule_appends_only (d d' : MemFs) :
  writeIconModule rev icon d = Ok ((), d') →
  mem_dirs d' = mem_dirs d ∧
  (∀ p str, mem_files d !! p = Some str →
     ∃ more, mem_files d' !! p = Some (str +:+ more)) ∧
  (∀ q, q ∉ distFile rev "all.mjs" :: distFile rev "all.d.ts" ::
              ((λ r, iconFile rev icon r.1) <$> rowFiles) →
     mem_files d' !! q = mem_files d !! q).
Proof.
  intros Hrun.
  assert (confined (λ q, q ∈ distFile rev "all.mjs" :: distFile rev "all.d.ts" ::
                             ((λ r, iconFile rev icon r.1) <$> rowFiles))
            (writeIconModule rev icon)) as Hc.
  { unfold writeIconModule. cbv zeta.
    apply confined_bind; [apply confined_getIconFiles|]. intros files.
    apply confined_bind.
    { eapply confined_weaken; [|apply confined_appendFile]. intros q ->. left. }
    intros _. apply confined_bind.
    { eapply confined_weaken; [|apply confined_appendFile].
      intros q ->. right. left. }
    intros _. apply confined_bind; [|intros ?; apply confined_ret].
    eapply confined_weaken; [|apply confined_iconLoop].
    intros q Hq. by do 2 right. }
  assert (append_only (writeIconModule rev icon)) as Ha.
  { unfold writeIconModule. cbv zeta.
    repeat first
      [ apply append_only_bind; [|intros ?]
      | apply append_only_getIconFiles
      | apply append_only_appendFile
      | apply append_only_iconLoop
      | apply append_only_ret ]. }
  destruct (Hc _ _ _ Hrun) as (Hd & _ & Hf). split_and!; [done | | done].
  by apply (Ha _ _ _ Hrun).
Qed.
End Rows.

(** ** The barrels, the banner, the licence and the index *)
Section Aggregates.
Context `{NodeEnv}.
Variable rev : revision.

(** What one [writeIconModule] adds to the two barrels *)
Lemma writeIconModule_barrel icon d d' :
  distFile rev "all.mjs" ≠ distFile rev "all.d.ts" →
  distFile rev "all.mjs" ∉ (λ r, iconFile rev icon r.1) <$> rowFiles →
  distFile rev "all.d.ts" ∉ (λ r, iconFile rev icon r.1) <$> rowFiles →
  writeIconModule rev icon d = Ok ((), d') →
  ∀ b, b ∈ ["all.mjs"; "all.d.ts"] →
    content d' (distFile rev b) =
    content d (distFile rev b) +:+ "export * from './" +:+ id icon +:+ "';" +:+ LF.
Proof.
  intros Hne Hm Hd. unfold writeIconModule. cbv zeta.
  intros (files & d0 & Hglob & Hrest)%bind_Ok.
  revert Hglob. intros [= _ <-].
  apply bind_Ok in Hrest as ([] & d1 & H1 & Hrest).
  apply bind_Ok in Hrest as ([] & d2 & H2 & Hrest).
  apply bind_Ok in Hrest as (seen' & d3 & Hloop & Hret). injection Hret as <-.
  unfold appendFile, effect in H1, H2. simpl in H1, H2.
  destruct (Mem.appendFile _ _ d) as [d1'|] eqn:Ha1; [|done]. injection H1 as <-.
  destruct (Mem.appendFile _ _ d1') as [d2'|] eqn:Ha2; [|done]. injection H2 as <-.
  apply mem_appendFile_Ok in Ha1 as (_ & _ & Hf1).
  apply mem_appendFile_Ok in Ha2 as (_ & _ & Hf2).
  fold (distFile rev "all.mjs") in *. fold (distFile rev "all.d.ts") in *.
  destruct (confined_iconLoop _ _ _ _ _ _ _ Hloop) as (_ & _ & Hframe).
  intros b [-> | ->%list_elem_of_singleton]%elem_of_cons.
  - unfold content at 1. rewrite Hframe by done. fold (content d2' (distFile rev "all.mjs")).
    rewrite (content_insert_ne _ _ _ _ _ Hf2) by done.
    by rewrite (content_insert_eq _ _ _ _ Hf1).
  - unfold content at 1. rewrite Hframe by done. fold (content d2' (distFile rev "all.d.ts")).
    rewrite (content_insert_eq _ _ _ _ Hf2).
    by rewrite (content_insert_ne _ _ _ _ _ Hf1) by done.
Qed.

(** The loop of [main] over the icon sets adds to each of the two barrels
    one re-export line per icon set, in the order of the descriptors, after
    what the barrel held. *)
Lemma barrel_loop (icons : list IconSetDescriptor) (d d' : MemFs) :
  distFile rev "all.mjs" ≠ distFile rev "all.d.ts" →
  (∀ icon b, icon ∈ icons → b ∈ ["all.mjs"; "all.d.ts"] →
     distFile rev b ∉ (λ r, iconFile rev icon r.1) <$> rowFiles) →
  for_of icons (writeIconModule rev) d = Ok ((), d') →
  ∀ b, b ∈ ["all.mjs"; "all.d.ts"] →
    content d' (distFile rev b) =
    content d (distFile rev b) +:+
    String.concat EmptyString
      ((λ icon, "export * from './" +:+ id icon +:+ "';" +:+ LF) <$> icons).
Proof.
  intros Hne. revert d. induction icons as [|icon icons IH]; intros d Hout Hrun b Hb.
  - injection Hrun as <-. simpl. by rewrite string_app_nil_r.
  - simpl in Hrun. apply bind_Ok in Hrun as ([] & d1 & H1 & Hrest).
    assert (∀ icon' b', icon' ∈ icons → b' ∈ ["all.mjs"; "all.d.ts"] →
              distFile rev b' ∉ (λ r, iconFile rev icon' r.1) <$> rowFiles) as Hout'.
    { intros icon' b' Hi. apply Hout. by right. }
    rewrite (IH d1 Hout' Hrest b Hb).
    rewrite (writeIconModule_barrel icon d d1 Hne); try done.
    + rewrite fmap_cons, string_concat_cons. by rewrite !string_app_assoc.
    + apply Hout; [left | left].
    + apply Hout; [left | right; left].
Qed.

(** [write] on the in-memory file system *)
Lemma mem_write_Ok filePath str x y :
  write rev filePath str x = Ok ((), y) →
  mem_files y = <[path_resolve (DIST rev :: filePath) := str]> (mem_files x).
Proof.
  unfold write. rewrite catch_ignore. unfold writeFile, effect. simpl.
  destruct (Mem.writeFile _ str x) as [y'|e] eqn:Hw.
  - intros [= <-]. by apply mem_writeFile_Ok in Hw as (_ & _ & ?).
  - apply writeFile_Err in Hw. by rewrite decide_False.
Qed.

Lemma banner_loop (fs : list string) x y :
  NoDup (distFile rev <$> fs) →
  for_of fs (λ file, write rev [file] AUTO_GENERATED) x = Ok ((), y) →
  ∀ f, f ∈ fs → mem_files y !! distFile rev f = Some AUTO_GENERATED.
Proof.
  revert x. induction fs as [|f0 fs IH]; intros x Hnd Hrun f Hf.
  - by apply elem_of_nil in Hf.
  - simpl in Hrun. apply bind_Ok in Hrun as ([] & x1 & Hw & Hrest).
    rewrite fmap_cons in Hnd. apply NoDup_cons in Hnd as [Hf0 Hnd].
    apply elem_of_cons in Hf as [-> | Hf]; [|by eapply IH].
    apply mem_write_Ok in Hw. fold (distFile rev f0) in Hw.
    assert (confined (λ q, q ∈ distFile rev <$> fs)
              (for_of fs (λ file, write rev [file] AUTO_GENERATED))) as Hc.
    { clear. induction fs as [|g fs IH]; simpl; [apply confined_ret|].
      apply confined_bind.
      - intros x [] y Hw. pose proof Hw as Hw'. apply mem_write_Ok in Hw.
        unfold write in Hw'. rewrite catch_ignore in Hw'.
        unfold writeFile, effect in Hw'. simpl in Hw'.
        destruct (Mem.writeFile _ _ x) as [y'|e] eqn:Hm.
        + injection Hw' as <-. apply mem_writeFile_Ok in Hm as (? & ? & _).
          split_and!; [done..|]. intros q Hq. rewrite Hw.
          apply lookup_insert_ne. intros <-. apply Hq. cbn [fmap list_fmap]. left.
        + apply writeFile_Err in Hm. by rewrite decide_False in Hw'.
      - intros _. eapply confined_weaken; [|exact IH].
        intros q Hq. cbn [fmap list_fmap]. by right. }
    destruct (Hc _ _ _ Hrest) as (_ & _ & Hframe).
    rewrite Hframe by done. rewrite Hw. apply lookup_insert_eq.
Qed.

(** Both revisions of [dirInit] end with the four writes of the banner *)
Lemma dirInit_tail (icons : list IconSetDescriptor) (d d' : MemFs) :
  dirInit icons rev d = Ok ((), d') →
  ∃ x, for_of initFiles (λ file, write rev [file] AUTO_GENERATED) x = Ok ((), d').
Proof.
  intros Hrun. unfold dirInit in Hrun. destruct rev.
  - apply bind_Ok in Hrun as ([] & x0 & _ & Hrun).
    apply bind_Ok in Hrun as ([] & x1 & _ & Hrun).
    exists x1. simpl. unfold bind in *.
    repeat (destruct (write _ _ _ _) as [[[] ?]|?]; [|done]). done.
  - apply bind_Ok in Hrun as ([] & x0 & _ & Hrun).
    apply bind_Ok in Hrun as ([] & x1 & _ & Hrun).
    apply bind_Ok in Hrun as ([] & x2 & _ & Hrun).
    apply bind_Ok in Hrun as ([] & x3 & _ & Hrun). by exists x3.
Qed.

(** X8.  [dirInit] ends by writing the four aggregate files: whatever they
    held, after a run that fulfils each of them holds the banner line and
    nothing else.  (Their four paths are distinct.) *)
Theorem dirInit_resets_aggregates (icons : list IconSetDescriptor) (d d' : MemFs) :
  NoDup (distFile rev <$> initFiles) →
  dirInit icons rev d = Ok ((), d') →
  ∀ f, f ∈ initFiles → mem_files d' !! distFile rev f = Some AUTO_GENERATED.
Proof.
  intros Hnd Hrun. destruct (dirInit_tail _ _ _ Hrun) as [x Hx].
  by eapply banner_loop.
Qed.

Lemma writable_dirs p x y :
  mem_dirs x = mem_dirs y → Mem.writable p x = Mem.writable p y.
Proof. unfold Mem.writable. by intros ->. Qed.

(** X9.  [writeLicense] leaves in [LICENSE] the header followed by the
    paragraphs of the icon sets, and leaves the header file as it was; what
    [LICENSE] held before is gone, so a second run changes nothing.  (The
    two paths are distinct.) *)
Theorem writeLicense_content (icons : list IconSetDescriptor) (d d' : MemFs) :
  path_resolve [rootDir; "LICENSE_HEADER"] ≠ path_resolve [rootDir; "LICENSE"] →
  writeLicense icons d = Ok ((), d') →
  ∃ header,
    mem_files d !! path_resolve [rootDir; "LICENSE_HEADER"] = Some header ∧
    mem_files d' !! path_resolve [rootDir; "LICENSE_HEADER"] = Some header ∧
    mem_files d' !! path_resolve [rootDir; "LICENSE"]
      = Some (header +:+ iconLicenses icons) ∧
    writeLicense icons d' = Ok ((), d').
Proof.
  intros Hne. unfold writeLicense.
  set (hp := path_resolve [rootDir; "LICENSE_HEADER"]) in *.
  set (lp := path_resolve [rootDir; "LICENSE"]) in *.
  unfold bind, copyFile, appendFile, effect. simpl.
  unfold Mem.copyFile, Mem.readFile, Mem.writeFile, Mem.appendFile.
  destruct (mem_files d !! hp) as [header|] eqn:Hh; [|done].
  destruct (Mem.writable lp d) as [e|] eqn:Hw; [done|].
  rewrite (writable_dirs lp (mkMemFs (mem_dirs d) _ _) d eq_refl), Hw.
  intros [= <-]. simpl. rewrite lookup_insert_eq. simpl. exists header.
  split_and!; [done | | apply lookup_insert_eq |].
  - by rewrite !lookup_insert_ne.
  - rewrite !lookup_insert_ne, Hh by done.
    rewrite (writable_dirs lp (mkMemFs (mem_dirs d) _ _) d eq_refl), Hw.
    rewrite (writable_dirs lp (mkMemFs (mem_dirs d) _ _) d eq_refl), Hw.
    simpl. rewrite lookup_insert_eq. simpl. by rewrite !insert_insert_eq.
Qed.

End Aggregates.

(** X10.  [writeIndexFile] adds the same text to [index.mjs] and to
    [index.d.ts], after what each held: the re-export of the manifest, then
    the two export lines, the last one without a line feed.  (The two paths
    are distinct.) *)
Theorem writeIndexFile_same_text `{NodeEnv} (d d' : MemFs) :
  distFile build_js "index.mjs" ≠ distFile build_js "index.d.ts" →
  writeIndexFile build_js d = Ok ((), d') →
  ∀ f, f ∈ ["index.mjs"; "index.d.ts"] →
    content d' (distFile build_js f) =
    content d (distFile build_js f) +:+ manifestExport +:+ imports.
Proof.
  intros Hne. unfold writeIndexFile.
  intros ([] & d1 & H1 & Hrest)%bind_Ok.
  apply bind_Ok in Hrest as ([] & d2 & H2 & Hrest).
  apply bind_Ok in Hrest as ([] & d3 & H3 & H4).
  unfold appendFile, effect in *. simpl in *.
  destruct (Mem.appendFile _ _ d) as [d1'|] eqn:Ha1; [|done]. injection H1 as <-.
  destruct (Mem.appendFile _ _ d1') as [d2'|] eqn:Ha2; [|done]. injection H2 as <-.
  destruct (Mem.appendFile _ _ d2') as [d3'|] eqn:Ha3; [|done]. injection H3 as <-.
  destruct (Mem.appendFile _ _ d3') as [d4'|] eqn:Ha4; [|done]. injection H4 as <-.
  apply mem_appendFile_Ok in Ha1 as (_ & _ & Hf1).
  apply mem_appendFile_Ok in Ha2 as (_ & _ & Hf2).
  apply mem_appendFile_Ok in Ha3 as (_ & _ & Hf3).
  apply mem_appendFile_Ok in Ha4 as (_ & _ & Hf4).
  fold (distFile build_js "index.mjs") in *. fold (distFile build_js "index.d.ts") in *.
  intros f [-> | ->%list_elem_of_singleton]%elem_of_cons.
  - rewrite (content_insert_ne _ _ _ _ _ Hf4) by done.
    rewrite (content_insert_eq _ _ _ _ Hf3).
    rewrite (content_insert_ne _ _ _ _ _ Hf2) by done.
    rewrite (content_insert_eq _ _ _ _ Hf1). by rewrite string_app_assoc.
  - rewrite (content_insert_eq _ _ _ _ Hf4).
    rewrite (content_insert_ne _ _ _ _ _ Hf3) by done.
    rewrite (content_insert_eq _ _ _ _ Hf2).
    rewrite (content_insert_ne _ _ _ _ _ Hf1) by done. by rewrite string_app_assoc.
Qed.

(** ** The whole build *)

Lemma distinct_at {A} (l : list A) (i j : nat) (x y : A) :
  NoDup l → l !! i = Some x → l !! j = Some y → i ≠ j → x ≠ y.
Proof. intros Hnd Hi Hj Hij ->. by apply Hij, (NoDup_lookup l i j y). Qed.

Section Build.
Context `{NodeEnv}.
Variables (icons : list IconSetDescriptor) (rev : revision).

Lemma confined_writeLicense :
  confined (λ q, q = path_resolve [rootDir; "LICENSE"]) (writeLicense icons).
Proof.
  unfold writeLicense. apply confined_bind; [apply confined_copyFile|].
  intros _. apply confined_appendFile.
Qed.

Lemma confined_writeIconsManifest :
  confined (λ q, q ∈ (λ f, path_resolve [manifestDir rev; f]) <$>
                       ["iconsManifest.mjs"; "iconsManifest.js"; "iconsManifest.d.ts"])
    (writeIconsManifest icons rev).
Proof.
  unfold writeIconsManifest. cbv zeta. apply confined_bind.
  { eapply confined_weaken; [|apply confined_writeFile]. intros q ->. left. }
  intros _. apply confined_bind.
  { eapply confined_weaken; [|apply confined_writeFile]. intros q ->. right. left. }
  intros _. eapply confined_weaken; [|apply confined_copyFile].
  intros q ->. do 2 right. left.
Qed.

Lemma confined_writeIndexFile r :
  confined (λ q, q ∈ distFile r <$> ["index.mjs"; "index.d.ts"]) (writeIndexFile r).
Proof.
  unfold writeIndexFile.
  repeat (apply confined_bind; [|intros _]);
    (eapply confined_weaken; [|apply confined_appendFile]); intros q ->;
    [left | right; left | left | right; left].
Qed.

(** X7.  After a build that completes, each of the two barrels holds the
    banner line followed by one re-export line per icon set, in the order
    of the descriptors, and nothing else: what an earlier build left in
    them is gone.  (The four aggregate files are distinct, and the barrels
    are neither the licence, nor a manifest file, nor a file of an icon
    set.) *)
Theorem barrels_after_build (d d' : MemFs) :
  NoDup (distFile rev <$> initFiles) →
  (∀ b, b ∈ ["all.mjs"; "all.d.ts"] →
     distFile rev b ∉
       path_resolve [rootDir; "LICENSE"] ::
       ((λ f, path_resolve [manifestDir rev; f]) <$>
          ["iconsManifest.mjs"; "iconsManifest.js"; "iconsManifest.d.ts"])) →
  (∀ icon b, icon ∈ icons → b ∈ ["all.mjs"; "all.d.ts"] →
     distFile rev b ∉ (λ r, iconFile rev icon r.1) <$> rowFiles) →
  main icons rev d = Done d' →
  ∀ b, b ∈ ["all.mjs"; "all.d.ts"] →
    mem_files d' !! distFile rev b =
    Some (AUTO_GENERATED +:+
          String.concat EmptyString
            ((λ icon, "export * from './" +:+ id icon +:+ "';" +:+ LF) <$> icons)).
Proof.
  intros Hnd Hother Hsets Hmain b Hb. unfold main in Hmain.
  destruct (build icons rev d) as [[[] d0]|e] eqn:Hbuild; [|done].
  injection Hmain as ->. unfold build in Hbuild.
  apply bind_Ok in Hbuild as ([] & d1 & Hinit & Hbuild).
  apply bind_Ok in Hbuild as ([] & d2 & Hlic & Hbuild).
  apply bind_Ok in Hbuild as ([] & d3 & Hman & Hbuild).
  apply bind_Ok in Hbuild as ([] & d4 & Hidx & Hloop).
  assert (b ∈ initFiles) as Hbi.
  { apply elem_of_cons in Hb as [-> | ->%list_elem_of_singleton];
      unfold initFiles; set_solver. }
  destruct (dirInit_tail rev icons d d1 Hinit) as [d0 Htail].
  pose proof (banner_loop rev initFiles d0 d1 Hnd Htail b Hbi) as H1.
  destruct (confined_writeLicense _ _ _ Hlic) as (_ & _ & Hf2).
  destruct (confined_writeIconsManifest _ _ _ Hman) as (_ & _ & Hf3).
  assert (mem_files d4 !! distFile rev b = mem_files d3 !! distFile rev b) as Hf4.
  { destruct rev; [|by injection Hidx as <-].
    destruct (confined_writeIndexFile _ _ _ _ Hidx) as (_ & _ & Hf4).
    apply Hf4. intros Hin. unfold initFiles in Hnd.
    revert Hin. apply not_elem_of_cons. rewrite list_elem_of_singleton.
    apply elem_of_cons in Hb as [-> | ->%list_elem_of_singleton]; split.
    - by apply (distinct_at _ 2 1 _ _ Hnd).
    - by apply (distinct_at _ 2 0 _ _ Hnd).
    - by apply (distinct_at _ 3 1 _ _ Hnd).
    - by apply (distinct_at _ 3 0 _ _ Hnd). }
  pose proof (Hother b Hb) as Hno.
  apply not_elem_of_cons in Hno as [Hnl Hnm].
  assert (content d4 (distFile rev b) = AUTO_GENERATED) as Hc.
  { unfold content. by rewrite Hf4, Hf3, Hf2, H1. }
  assert (distFile rev "all.mjs" ≠ distFile rev "all.d.ts") as Hne.
  { by apply (distinct_at _ 2 3 _ _ Hnd). }
  pose proof (barrel_loop rev icons d4 d' Hne Hsets Hloop b Hb) as Hend.
  rewrite Hc in Hend. rewrite <- Hend. unfold content.
  assert (is_Some (mem_files d' !! distFile rev b)) as [str Hstr]; [|by rewrite Hstr].
  assert (append_only (for_of icons (writeIconModule rev))) as Ha.
  { apply append_only_for_of. intros icon. unfold writeIconModule. cbv zeta.
    repeat first
      [ apply append_only_bind; [|intros ?]
      | apply append_only_getIconFiles
      | apply append_only_appendFile
      | apply append_only_iconLoop
      | apply append_only_ret ]. }
  destruct (Ha _ _ _ Hloop (distFile rev b) AUTO_GENERATED) as [more Hmore]; [|eauto].
  by rewrite Hf4, Hf3, Hf2, H1.
Qed.
End Build.

(** ** Running the script again *)
Section Rebuild.
Context `{NodeEnv}.

Lemma regrows_refl x : regrows x x.
Proof. split; [apply grows_refl | done]. Qed.

Lemma regrows_trans x y z : regrows x y → regrows y z → regrows x z.
Proof.
  intros [? Hg1] [? Hg2]. split; [by eapply grows_trans | by rewrite Hg2].
Qed.

Lemma repeats_ret {A} (a : A) : repeats (ret a) (ret a).
Proof.
  intros x a' y [= <- <-]. split; [apply regrows_refl|].
  intros z _. exists z. split; [done | apply regrows_refl].
Qed.

Lemma repeats_bind {A B} (m m' : Async MemFs A) (k k' : A → Async MemFs B) :
  repeats m m' → (∀ a, repeats (k a) (k' a)) → repeats (bind m k) (bind m' k').
Proof.
  intros H1 H2 x b y (a & x1 & Hx1 & Hy)%bind_Ok.
  destruct (H1 _ _ _ Hx1) as [Hg1 Hre1]. destruct (H2 a _ _ _ Hy) as [Hg2 Hre2].
  split; [by eapply regrows_trans|].
  intros z Hz. destruct (Hre1 z) as (z1 & Hz1 & Hgz1); [by eapply regrows_trans|].
  destruct (Hre2 z1) as (z' & Hz' & Hgz'); [by eapply regrows_trans|].
  exists z'. split; [|by eapply regrows_trans].
  apply bind_Ok. by exists a, z1.
Qed.

Lemma repeats_for_of {A} (xs : list A) (body : A → Async MemFs ()) :
  (∀ x, repeats (body x) (body x)) → repeats (for_of xs body) (for_of xs body).
Proof.
  intros Hb. induction xs as [|x xs IH]; simpl; [apply repeats_ret|].
  apply repeats_bind; [apply Hb | by intros _].
Qed.

Lemma repeats_rerunnable (m : Async MemFs ()) :
  rerunnable m → (∀ x y, m x = Ok ((), y) → mem_glob y = mem_glob x) →
  repeats m m.
Proof.
  intros Hr Hg x [] y Hxy. destruct (Hr _ _ Hxy) as [Hgr Hre].
  split; [split; [done | by apply Hg]|].
  intros z [Hz _]. destruct (Hre z Hz) as (z' & Hz' & Hgz).
  exists z'. split; [done|]. split; [done | by apply Hg].
Qed.

Lemma repeats_mkdir p : repeats (catch (mkdir p) ignore) (catch (mkdir p) ignore).
Proof.
  apply repeats_rerunnable; [apply rerunnable_mkdir|].
  intros x y. rewrite catch_ignore. unfold mkdir, effect. simpl. unfold Mem.mkdir.
  repeat case_decide; simpl; try done; by intros [= <-].
Qed.

Lemma repeats_detached p str :
  repeats (detached (writeFile p str)) (detached (writeFile p str)).
Proof.
  apply repeats_rerunnable; [apply rerunnable_detached|].
  intros x y. unfold detached, writeFile, effect. simpl. unfold Mem.writeFile.
  destruct (Mem.writable p x); by intros [= <-].
Qed.

(** A file written once can be written again, whatever the disk has grown to *)
Lemma put_regrows p s x :
  regrows x (mkMemFs (mem_dirs x) (<[p := s]> (mem_files x)) (mem_glob x)).
Proof.
  split; [|done]. split_and!; simpl; [done | | done].
  intros q Hq. destruct (decide (p = q)) as [->|].
  - rewrite lookup_insert_eq. eauto.
  - by rewrite lookup_insert_ne.
Qed.

Lemma writable_after p s x z :
  Mem.writable p x = None →
  regrows (mkMemFs (mem_dirs x) (<[p := s]> (mem_files x)) (mem_glob x)) z →
  Mem.writable p z = None.
Proof.
  unfold Mem.writable.
  destruct (decide (p ∈ mem_dirs x)) as [|Hp]; [done|].
  destruct (decide (Path.dirname p ∈ mem_dirs x)) as [Hd|]; [|done].
  intros _ [(Hdirs & _ & Hkeep) _]. simpl in *.
  rewrite decide_False, decide_True; [done | by apply Hdirs |].
  apply Hkeep; [|done]. rewrite lookup_insert_eq. eauto.
Qed.

Lemma repeats_writeFile p str str' : repeats (writeFile p str) (writeFile p str').
Proof.
  intros x [] y. unfold writeFile, effect. simpl. unfold Mem.writeFile.
  destruct (Mem.writable p x) eqn:Hw; [done|]. intros [= <-].
  split; [apply put_regrows|]. intros z Hz.
  rewrite (writable_after _ _ _ _ Hw Hz). eexists. split; [done | apply put_regrows].
Qed.

Lemma repeats_write r filePath str : repeats (write r filePath str) (write r filePath str).
Proof.
  assert (∀ x, write r filePath str x = writeFile (path_resolve (DIST r :: filePath)) str x)
    as Heq.
  { intros x. unfold write. rewrite catch_ignore.
    unfold writeFile, effect. simpl.
    destruct (Mem.writeFile _ str x) as [y|e] eqn:Hw; [done|].
    apply writeFile_Err in Hw. by rewrite decide_False. }
  intros x a y. rewrite Heq. intros Hr.
  destruct (repeats_writeFile _ str str _ _ _ Hr) as [Hg Hre]. split; [done|].
  intros z Hz. rewrite Heq. by apply Hre.
Qed.

Lemma repeats_appendFile p str str' : repeats (appendFile p str) (appendFile p str').
Proof.
  intros x [] y. unfold appendFile, effect. simpl. unfold Mem.appendFile.
  destruct (Mem.writable p x) eqn:Hw; [done|]. intros [= <-].
  split; [apply put_regrows|]. intros z Hz.
  rewrite (writable_after _ _ _ _ Hw Hz). eexists. split; [done | apply put_regrows].
Qed.

Lemma repeats_copyFile src dst : repeats (copyFile src dst) (copyFile src dst).
Proof.
  intros x [] y. unfold copyFile, effect. simpl.
  unfold Mem.copyFile, Mem.readFile, Mem.writeFile.
  destruct (mem_files x !! src) as [s|] eqn:Hs; [|done].
  destruct (Mem.writable dst x) eqn:Hw; [done|]. intros [= <-].
  split; [apply put_regrows|]. intros z Hz.
  rewrite (writable_after _ _ _ _ Hw Hz).
  destruct Hz as [(_ & Hf & _) _]. destruct (Hf src) as [s' Hs'].
  { simpl. destruct (decide (dst = src)) as [->|].
    - rewrite lookup_insert_eq. eauto.
    - rewrite lookup_insert_ne by done. eauto. }
  rewrite Hs'. eexists. split; [done | apply put_regrows].
Qed.

Lemma repeats_getIconFiles icon : repeats (getIconFiles icon) (getIconFiles icon).
Proof.
  intros x a y. unfold getIconFiles, query. simpl. unfold Mem.glob.
  intros [= <- <-]. split; [apply regrows_refl|].
  intros z [_ Hg]. exists z. rewrite Hg. split; [done | apply regrows_refl].
Qed.

Variables (icons : list IconSetDescriptor) (rev : revision).

Lemma repeats_dirInit : repeats (dirInit icons rev) (dirInit icons rev).
Proof.
  unfold dirInit. destruct rev;
    repeat first
      [ apply repeats_bind; [|intros _]
      | apply repeats_for_of; intros ?
      | apply repeats_mkdir
      | apply repeats_write
      | apply repeats_detached
      | apply repeats_ret ].
Qed.

Lemma repeats_writeLicense : repeats (writeLicense icons) (writeLicense icons).
Proof.
  unfold writeLicense. apply repeats_bind; [apply repeats_copyFile|].
  intros _. apply repeats_appendFile.
Qed.

Lemma repeats_writeIconsManifest :
  repeats (writeIconsManifest icons rev) (writeIconsManifest icons rev).
Proof.
  unfold writeIconsManifest. cbv zeta.
  repeat first
    [ apply repeats_bind; [|intros _]
    | apply repeats_writeFile
    | apply repeats_copyFile ].
Qed.

Lemma repeats_writeIndexFile r : repeats (writeIndexFile r) (writeIndexFile r).
Proof.
  unfold writeIndexFile.
  repeat first [ apply repeats_bind; [|intros _] | apply repeats_appendFile ].
Qed.

(** The three appends of an iteration go through again, whatever the icon
    file holds by then *)
Lemma repeats_emitRows icon file svgStr svgStr' :
  repeats (emitRows rev icon file svgStr) (emitRows rev icon file svgStr').
Proof.
  unfold emitRows. cbv zeta.
  repeat first [ apply repeats_bind; [|intros _] | apply repeats_appendFile ].
Qed.

(** The loop over the files goes through again and skips the same files:
    what it skips depends on the names only *)
Lemma repeats_iconLoop icon files seen :
  repeats (iconLoop rev icon files seen) (iconLoop rev icon files seen).
Proof.
  revert seen. induction files as [|file files IH]; intros seen.
  - apply repeats_ret.
  - intros x seen' y. rewrite iconLoop_cons.
    intros (svgStr & x0 & Hread & Hrest)%bind_Ok.
    unfold readFile, query in Hread. simpl in Hread.
    destruct (Mem.readFile file x) as [s|] eqn:Hfile; [|done].
    revert Hread. intros [= -> <-].
    assert (∀ z, regrows x z → ∃ s', Mem.readFile file z = Ok s') as Hagain.
    { intros z [(_ & Hf & _) _]. destruct (Hf file) as [s' Hs'].
      - apply mem_readFile_Ok in Hfile. eauto.
      - exists s'. unfold Mem.readFile. by rewrite Hs'. }
    destruct (decide (resolvedName icon file ∈ seen)) as [Hin|Hout].
    + destruct (IH seen _ _ _ Hrest) as [Hg Hre]. split; [done|].
      intros z Hz. destruct (Hagain z) as [s' Hs']; [by eapply regrows_trans|].
      rewrite iconLoop_cons. unfold bind at 1, readFile, query. simpl.
      rewrite Hs', decide_True by done. by apply Hre.
    + apply bind_Ok in Hrest as ([] & x1 & Hrows & Hrest).
      destruct (IH _ _ _ _ Hrest) as [Hg Hre].
      split.
      { eapply regrows_trans; [|exact Hg].
        by apply (repeats_emitRows icon file svgStr svgStr _ _ _ Hrows). }
      intros z Hz.
      destruct (repeats_emitRows icon file svgStr svgStr _ _ _ Hrows) as [Hg1 _].
      destruct (Hagain z) as [s' Hs'].
      { eapply regrows_trans; [exact Hg1|]. by eapply regrows_trans. }
      destruct (repeats_emitRows icon file svgStr s' _ _ _ Hrows) as [_ Hre1].
      destruct (Hre1 z) as (z1 & Hz1 & Hgz1); [by eapply regrows_trans|].
      destruct (Hre z1) as (z' & Hz' & Hgz'); [by eapply regrows_trans|].
      exists z'. split; [|by eapply regrows_trans].
      rewrite iconLoop_cons. unfold bind at 1, readFile, query. simpl.
      rewrite Hs', decide_False by done. apply bind_Ok. by exists (), z1.
Qed.

Lemma repeats_writeIconModule icon :
  repeats (writeIconModule rev icon) (writeIconModule rev icon).
Proof.
  unfold writeIconModule. cbv zeta.
  apply repeats_bind; [apply repeats_getIconFiles|]. intros files.
  apply repeats_bind; [apply repeats_appendFile|]. intros _.
  apply repeats_bind; [apply repeats_appendFile|]. intros _.
  apply repeats_bind; [apply repeats_iconLoop|]. intros _. apply repeats_ret.
Qed.

Lemma repeats_build : repeats (build icons rev) (build icons rev).
Proof.
  unfold build.
  apply repeats_bind; [apply repeats_dirInit|]. intros _.
  apply repeats_bind; [apply repeats_writeLicense|]. intros _.
  apply repeats_bind; [apply repeats_writeIconsManifest|]. intros _.
  apply repeats_bind.
  { destruct rev; [apply repeats_writeIndexFile | apply repeats_ret]. }
  intros _. apply repeats_for_of. intros icon. apply repeats_writeIconModule.
Qed.

(** X11.  A build that completed can be run again: it removed no file and
    no directory, and [main] completes on the disk it left, and on any disk
    that has since kept those files and directories and gives the same
    [glob] results.  Nothing that a build creates makes the next one
    fail. *)
Theorem main_can_be_repeated (d d' : MemFs) :
  main icons rev d = Done d' →
  grows d d' ∧
  ∀ z, grows d' z → mem_glob z = mem_glob d' → ∃ z', main icons rev z = Done z'.
Proof.
  unfold main. destruct (build icons rev d) as [[[] d0]|e] eqn:Hbuild; [|done].
  intros [= ->]. destruct (repeats_build _ _ _ Hbuild) as [[Hg _] Hre].
  split; [done|]. intros z Hz Hglob.
  destruct (Hre z) as (z' & Hz' & _); [by split|].
  exists z'. by rewrite Hz'.
Qed.
End Rebuild.

(** ** The files of the icon sets after a build *)
Section IconSets.
Context `{NodeEnv}.

Lemma writes_within_confined {A} P (m : Async MemFs A) :
  confined P m → writes_within P m.
Proof. intros Hc x a y Hrun. by destruct (Hc _ _ _ Hrun) as (_ & ? & ?). Qed.

Lemma writes_within_ret {A} P (a : A) : writes_within P (ret a).
Proof. apply writes_within_confined, confined_ret. Qed.

Lemma writes_within_bind {A B} P (m : Async MemFs A) (k : A → Async MemFs B) :
  writes_within P m → (∀ a, writes_within P (k a)) → writes_within P (bind m k).
Proof.
  intros Hm Hk x b y (a & x1 & H1 & H2)%bind_Ok.
  destruct (Hm _ _ _ H1) as (Hg1 & Hf1). destruct (Hk _ _ _ _ H2) as (Hg2 & Hf2).
  split; [congruence|]. intros q Hq. by rewrite Hf2, Hf1.
Qed.

Lemma writes_within_weaken {A} (P Q : string → Prop) (m : Async MemFs A) :
  (∀ q, P q → Q q) → writes_within P m → writes_within Q m.
Proof.
  intros HPQ Hm x a y Hrun. destruct (Hm _ _ _ Hrun) as (? & Hf).
  split; [done|]. intros q Hq. apply Hf. eauto.
Qed.

Lemma writes_within_for_of {A} P (xs : list A) (body : A → Async MemFs ()) :
  (∀ x, x ∈ xs → writes_within P (body x)) → writes_within P (for_of xs body).
Proof.
  induction xs as [|x xs IH]; intros Hb; simpl; [apply writes_within_ret|].
  apply writes_within_bind; [apply Hb; left|].
  intros _. apply IH. intros ??. apply Hb. by right.
Qed.

Lemma writes_within_mkdir P p : writes_within P (catch (mkdir p) ignore).
Proof.
  intros x [] y. rewrite catch_ignore. unfold mkdir, effect. simpl.
  destruct (Mem.mkdir p x) as [x'|e] eqn:Hm.
  - intros [= <-]. apply mem_mkdir_files in Hm as [Hf Hg]. by rewrite Hf.
  - case_decide; [|done]. by intros [= <-].
Qed.

Lemma writes_within_write r filePath str :
  writes_within (λ q, q = path_resolve (DIST r :: filePath)) (write r filePath str).
Proof.
  intros x [] y. unfold write. rewrite catch_ignore.
  destruct (writeFile _ str x) as [[[] x']|e] eqn:Hw.
  - intros [= <-]. by destruct (confined_writeFile _ _ _ _ _ Hw) as (_ & ? & ?).
  - case_decide; [|done]. by intros [= <-].
Qed.

Lemma writes_within_detached p str :
  writes_within (λ q, q = p) (detached (writeFile p str)).
Proof.
  intros x [] y. unfold detached.
  destruct (writeFile _ str x) as [[[] x']|e] eqn:Hw.
  - intros [= <-]. by destruct (confined_writeFile _ _ _ _ _ Hw) as (_ & ? & ?).
  - by intros [= <-].
Qed.

Lemma elem_of_iconFiles r icon out type :
  (out, type) ∈ rowFiles → iconFile r icon out ∈ iconFiles r icon.
Proof.
  intros Hin. unfold iconFiles. apply list_elem_of_fmap. by exists (out, type).
Qed.

Lemma elem_of_all_iconFiles r icons icon q :
  icon ∈ icons → q ∈ iconFiles r icon → q ∈ icons ≫= iconFiles r.
Proof. intros ??. apply list_elem_of_bind. eauto. Qed.

Lemma writes_within_dirInit icons r :
  writes_within
    (λ q, q ∈ (distFile r <$> match r with
                              | build_js => initFiles
                              | part_000 => ".gitignore" :: initFiles
                              end) ++ (icons ≫= iconFiles r))
    (dirInit icons r).
Proof.
  assert (∀ P icon file str,
            icon ∈ icons → (∃ type, (file, type) ∈ rowFiles) →
            (∀ q, q ∈ icons ≫= iconFiles r → P q) →
            writes_within P (write r [id icon; file] str)) as Hicon.
  { intros P icon file str Hi [type Hf] HP.
    eapply writes_within_weaken; [|apply writes_within_write].
    intros q ->. apply HP. eapply elem_of_all_iconFiles; [done|].
    by eapply (elem_of_iconFiles r icon file type). }
  unfold dirInit. destruct r.
  - apply writes_within_bind; [apply writes_within_mkdir|]. intros _.
    apply writes_within_bind.
    { apply writes_within_for_of. intros icon Hi.
      apply writes_within_bind; [apply writes_within_mkdir|]. intros _.
      apply writes_within_bind.
      { apply Hicon; [done | exists "common"; by apply (bool_decide_unpack _) |].
        intros q ?. apply elem_of_app. by right. }
      intros _. apply writes_within_bind.
      { apply Hicon; [done | exists "module"; by apply (bool_decide_unpack _) |].
        intros q ?. apply elem_of_app. by right. }
      intros _. apply Hicon; [done | exists "dts"; by apply (bool_decide_unpack _) |].
      intros q ?. apply elem_of_app. by right. }
    intros _.
    repeat (apply writes_within_bind; [|intros _]);
      (eapply writes_within_weaken; [|apply writes_within_write]);
      intros q ->; apply elem_of_app; left;
      apply list_elem_of_fmap; eexists; (split; [reflexivity|]);
      by apply (bool_decide_unpack _).
  - apply writes_within_bind; [apply writes_within_mkdir|]. intros _.
    apply writes_within_bind; [apply writes_within_mkdir|]. intros _.
    apply writes_within_bind.
    { eapply writes_within_weaken; [|apply writes_within_detached].
      intros q ->. apply elem_of_app. left. rewrite fmap_cons. left. }
    intros _. apply writes_within_bind.
    { apply writes_within_for_of. intros icon Hi.
      apply writes_within_bind; [apply writes_within_mkdir|]. intros _.
      apply writes_within_bind.
      { apply Hicon; [done | exists "common"; by apply (bool_decide_unpack _) |].
        intros q ?. apply elem_of_app. by right. }
      intros _. apply writes_within_bind.
      { apply Hicon; [done | exists "module"; by apply (bool_decide_unpack _) |].
        intros q ?. apply elem_of_app. by right. }
      intros _. apply Hicon; [done | exists "dts"; by apply (bool_decide_unpack _) |].
      intros q ?. apply elem_of_app. by right. }
    intros _. apply writes_within_for_of. intros file Hfile.
    eapply writes_within_weaken; [|apply writes_within_write].
    intros q ->. apply elem_of_app. left. rewrite fmap_cons. right.
    apply list_elem_of_fmap. by exists file.
Qed.

(** The loop of [dirInit] over the icon sets leaves the three files of
    each icon set with their first lines *)
Lemma icon_dirs_loop r (hjs hmjs hdts : string) (icons : list IconSetDescriptor) x y :
  NoDup (icons ≫= iconFiles r) →
  for_of icons (λ icon,
    await catch (mkdir (path_resolve [DIST r; id icon])) ignore;
    await write r [id icon; "index.js"] hjs;
    await write r [id icon; "index.mjs"] hmjs;
    write r [id icon; "index.d.ts"] hdts) x = Ok ((), y) →
  ∀ icon, icon ∈ icons →
    mem_files y !! iconFile r icon "index.js" = Some hjs ∧
    mem_files y !! iconFile r icon "index.mjs" = Some hmjs ∧
    mem_files y !! iconFile r icon "index.d.ts" = Some hdts.
Proof.
  revert x. induction icons as [|i rest IH]; intros x Hnd Hrun icon Hin.
  { by apply elem_of_nil in Hin. }
  cbn [for_of] in Hrun. apply bind_Ok in Hrun as ([] & x1 & Hbody & Hrest).
  cbn [mbind list_bind] in Hnd. apply NoDup_app in Hnd as (Hnd_i & Hdisj & Hnd_rest).
  apply elem_of_cons in Hin as [-> | Hin]; [|by eapply IH].
  assert (writes_within (λ q, q ∈ rest ≫= iconFiles r)
            (for_of rest (λ icon,
               await catch (mkdir (path_resolve [DIST r; id icon])) ignore;
               await write r [id icon; "index.js"] hjs;
               await write r [id icon; "index.mjs"] hmjs;
               write r [id icon; "index.d.ts"] hdts))) as Hframe.
  { apply writes_within_for_of. intros icon Hi.
    apply writes_within_bind; [apply writes_within_mkdir|]. intros _.
    repeat (apply writes_within_bind; [|intros _]);
      (eapply writes_within_weaken; [|apply writes_within_write]);
      intros q ->; (eapply elem_of_all_iconFiles; [done|]).
    - by apply (elem_of_iconFiles r icon "index.js" "common"), (bool_decide_unpack _).
    - by apply (elem_of_iconFiles r icon "index.mjs" "module"), (bool_decide_unpack _).
    - by apply (elem_of_iconFiles r icon "index.d.ts" "dts"), (bool_decide_unpack _). }
  destruct (Hframe _ _ _ Hrest) as [_ Hkeep].
  apply bind_Ok in Hbody as ([] & xa & Hmk & Hbody).
  apply bind_Ok in Hbody as ([] & xb & Hjs & Hbody).
  apply bind_Ok in Hbody as ([] & xc & Hmjs & Hdts).
  apply mem_write_Ok in Hjs, Hmjs, Hdts.
  fold (iconFile r i "index.js") in Hjs. fold (iconFile r i "index.mjs") in Hmjs.
  fold (iconFile r i "index.d.ts") in Hdts.
  assert (iconFile r i "index.mjs" ≠ iconFile r i "index.js") as Hmj.
  { by apply (distinct_at _ 0 1 _ _ Hnd_i). }
  assert (iconFile r i "index.mjs" ≠ iconFile r i "index.d.ts") as Hmd.
  { by apply (distinct_at _ 0 2 _ _ Hnd_i). }
  assert (iconFile r i "index.js" ≠ iconFile r i "index.d.ts") as Hjd.
  { by apply (distinct_at _ 1 2 _ _ Hnd_i). }
  split_and!.
  - rewrite Hkeep.
    + rewrite Hdts, lookup_insert_ne, Hmjs, lookup_insert_ne, Hjs by done.
      apply lookup_insert_eq.
    + apply Hdisj.
      by apply (elem_of_iconFiles r i "index.js" "common"), (bool_decide_unpack _).
  - rewrite Hkeep.
    + rewrite Hdts, lookup_insert_ne, Hmjs by done. apply lookup_insert_eq.
    + apply Hdisj.
      by apply (elem_of_iconFiles r i "index.mjs" "module"), (bool_decide_unpack _).
  - rewrite Hkeep.
    + rewrite Hdts. apply lookup_insert_eq.
    + apply Hdisj.
      by apply (elem_of_iconFiles r i "index.d.ts" "dts"), (bool_decide_unpack _).
Qed.

Lemma globbed_glob x y icon : mem_glob y = mem_glob x → globbed y icon = globbed x icon.
Proof. unfold globbed, Mem.glob. by intros ->. Qed.

Lemma getIconFiles_globbed icon x found y :
  getIconFiles icon x = Ok (found, y) → found = globbed x icon ∧ y = x.
Proof.
  unfold getIconFiles, query, globbed. simpl. unfold Mem.glob. by intros [= <- <-].
Qed.

Lemma confined_writeIconModule r icon :
  confined (λ q, q ∈ barrels r ++ iconFiles r icon) (writeIconModule r icon).
Proof.
  unfold writeIconModule. cbv zeta.
  apply confined_bind; [apply confined_getIconFiles|]. intros found.
  apply confined_bind.
  { eapply confined_weaken; [|apply confined_appendFile]. intros q ->. left. }
  intros _. apply confined_bind.
  { eapply confined_weaken; [|apply confined_appendFile].
    intros q ->. right. left. }
  intros _. apply confined_bind; [|intros ?; apply confined_ret].
  eapply confined_weaken; [|apply confined_iconLoop].
  intros q Hq. by do 2 right.
Qed.

Lemma append_only_writeIconModule r icon : append_only (writeIconModule r icon).
Proof.
  unfold writeIconModule. cbv zeta.
  repeat first
    [ apply append_only_bind; [|intros ?]
    | apply append_only_getIconFiles
    | apply append_only_appendFile
    | apply append_only_iconLoop
    | apply append_only_ret ].
Qed.

Lemma rowsOf_ext r icon type x y kept :
  (∀ f, f ∈ kept → content y f = content x f) →
  rowsOf r icon type y kept = rowsOf r icon type x kept.
Proof.
  intros Hsame. unfold rowsOf. f_equal. apply list_fmap_ext.
  intros i f Hf%list_elem_of_lookup_2. by rewrite Hsame.
Qed.

(** What [writeIconModule] adds to the three files of its icon set *)
Lemma writeIconModule_rows r icon x y :
  NoDup (iconFiles r icon) →
  (∀ b, b ∈ barrels r → b ∉ iconFiles r icon) →
  (∀ f, f ∈ globbed x icon → f ∉ barrels r ++ iconFiles r icon) →
  writeIconModule r icon x = Ok ((), y) →
  ∀ out type, (out, type) ∈ rowFiles →
    content y (iconFile r icon out) =
    content x (iconFile r icon out) +:+
    rowsOf r icon type x (emitted icon (globbed x icon) ∅).
Proof.
  intros Hnd Hbar Hsrc. unfold writeIconModule. cbv zeta.
  intros (found & x0 & [-> ->]%getIconFiles_globbed & Hrest)%bind_Ok.
  apply bind_Ok in Hrest as ([] & x1 & H1 & Hrest).
  apply bind_Ok in Hrest as ([] & x2 & H2 & Hrest).
  apply bind_Ok in Hrest as (seen' & x3 & Hloop & Hret).
  revert Hret. intros [= <-].
  destruct (confined_appendFile _ _ _ _ _ H1) as (_ & _ & Hf1).
  destruct (confined_appendFile _ _ _ _ _ H2) as (_ & _ & Hf2).
  assert (∀ q, q ∉ barrels r → content x2 q = content x q) as Hsame.
  { intros q Hq. unfold content. rewrite Hf2, Hf1; [done | |].
    - intros ->. apply Hq. left.
    - intros ->. apply Hq. right. left. }
  intros out type Hout.
  rewrite (iconLoop_rows r icon _ _ _ _ _ Hnd) with (3:=Hout) (2:=Hloop).
  - fold (rowsOf r icon type x2 (emitted icon (globbed x icon) ∅)).
    rewrite Hsame.
    + f_equal. apply rowsOf_ext. intros f Hf. apply Hsame.
      apply emitted_elem_of, Hsrc in Hf. intros ?. apply Hf, elem_of_app. by left.
    + intros Hb. by apply (Hbar _ Hb), (elem_of_iconFiles r icon out type).
  - intros f Hf%Hsrc ?. apply Hf, elem_of_app. by right.
Qed.

Lemma confined_modules r (icons : list IconSetDescriptor) :
  confined (λ q, q ∈ barrels r ++ (icons ≫= iconFiles r))
    (for_of icons (writeIconModule r)).
Proof.
  induction icons as [|i rest IH]; cbn [for_of]; [apply confined_ret|].
  apply confined_bind.
  - eapply confined_weaken; [|apply confined_writeIconModule].
    intros q. cbn [mbind list_bind]. rewrite !elem_of_app. tauto.
  - intros _. eapply confined_weaken; [|exact IH].
    intros q. cbn [mbind list_bind]. rewrite !elem_of_app. tauto.
Qed.

(** The loop of [main] over the icon sets adds to the three files of each
    icon set the rows of that icon set and nothing else *)
Lemma modules_loop r (icons : list IconSetDescriptor) x y :
  NoDup (icons ≫= iconFiles r) →
  (∀ b, b ∈ barrels r → b ∉ icons ≫= iconFiles r) →
  (∀ icon f, icon ∈ icons → f ∈ globbed x icon →
     f ∉ barrels r ++ (icons ≫= iconFiles r)) →
  for_of icons (writeIconModule r) x = Ok ((), y) →
  ∀ icon out type, icon ∈ icons → (out, type) ∈ rowFiles →
    content y (iconFile r icon out) =
    content x (iconFile r icon out) +:+
    rowsOf r icon type x (emitted icon (globbed x icon) ∅).
Proof.
  revert x. induction icons as [|i rest IH];
    intros x Hnd Hbar Hsrc Hrun icon out type Hin Hout.
  { by apply elem_of_nil in Hin. }
  cbn [for_of] in Hrun. apply bind_Ok in Hrun as ([] & x1 & Hi & Hrest).
  cbn [mbind list_bind] in Hnd, Hbar, Hsrc.
  apply NoDup_app in Hnd as (Hnd_i & Hdisj & Hnd_rest).
  destruct (confined_writeIconModule r i _ _ _ Hi) as (_ & Hglob1 & Hkeep1).
  destruct (confined_modules r rest _ _ _ Hrest) as (_ & _ & Hkeep2).
  pose proof (elem_of_iconFiles r icon out type Hout) as Hp.
  apply elem_of_cons in Hin as [-> | Hin].
  - rewrite <- (writeIconModule_rows r i x x1 Hnd_i) with (4:=Hout) (3:=Hi).
    + unfold content. rewrite Hkeep2; [done|].
      intros [Hb | Hr]%elem_of_app.
      * apply (Hbar _ Hb), elem_of_app. by left.
      * by apply (Hdisj _ Hp).
    + intros b Hb Hbi. apply (Hbar _ Hb), elem_of_app. by left.
    + intros f Hf. pose proof (Hsrc i f (list_elem_of_here _ _) Hf) as Hno.
      revert Hno. rewrite !elem_of_app. tauto.
  - assert (icon ∈ i :: rest) as Hin' by (by right).
    pose proof (elem_of_all_iconFiles r rest icon _ Hin Hp) as Hpr.
    rewrite (IH x1 Hnd_rest) with (4:=Hin) (5:=Hout) (3:=Hrest).
    + rewrite (globbed_glob x x1 icon Hglob1). f_equal.
      * unfold content. rewrite Hkeep1; [done|].
        intros [Hb | Hi']%elem_of_app.
        -- apply (Hbar _ Hb), elem_of_app. by right.
        -- by apply (Hdisj _ Hi').
      * apply rowsOf_ext. intros f Hf%emitted_elem_of.
        unfold content. rewrite Hkeep1; [done|].
        pose proof (Hsrc icon f Hin' Hf) as Hno.
        revert Hno. rewrite !elem_of_app. tauto.
    + intros b Hb Hbr. apply (Hbar _ Hb), elem_of_app. by right.
    + intros icon' f Hi' Hf. rewrite (globbed_glob x x1 icon' Hglob1) in Hf.
      assert (icon' ∈ i :: rest) as Hi'' by (by right).
      pose proof (Hsrc icon' f Hi'' Hf) as Hno.
      revert Hno. rewrite !elem_of_app. tauto.
Qed.

(** [dirInit] leaves the three files of every icon set with their first
    lines *)
Lemma dirInit_headers r (icons : list IconSetDescriptor) d d1 :
  NoDup (icons ≫= iconFiles r) →
  (∀ q, q ∈ distFile r <$> initFiles → q ∉ icons ≫= iconFiles r) →
  dirInit icons r d = Ok ((), d1) →
  ∀ icon out header, icon ∈ icons → (out, header) ∈ headers r →
    mem_files d1 !! iconFile r icon out = Some header.
Proof.
  intros Hnd Hdisj Hrun icon out header Hin Hhead.
  assert (∀ q, q ∈ icons ≫= iconFiles r → ¬ q ∈ distFile r <$> initFiles) as Hdisj'.
  { intros q Hq Hi. by apply (Hdisj q). }
  assert (∀ out type, (out, type) ∈ rowFiles →
            iconFile r icon out ∈ icons ≫= iconFiles r) as Hp.
  { intros ?? Ho. eapply elem_of_all_iconFiles; [done|]. by eapply elem_of_iconFiles. }
  assert (writes_within (λ q, q ∈ distFile r <$> initFiles)
            (for_of initFiles (λ file, write r [file] AUTO_GENERATED))) as Hbanner.
  { apply writes_within_for_of. intros file Hfile.
    eapply writes_within_weaken; [|apply writes_within_write].
    intros q ->. apply list_elem_of_fmap. by exists file. }
  unfold dirInit in Hrun. destruct r.
  - apply bind_Ok in Hrun as ([] & x0 & _ & Hrun).
    apply bind_Ok in Hrun as ([] & y & Hloop & Hrest).
    assert (writes_within (λ q, q ∈ distFile build_js <$> initFiles)
              (await write build_js ["index.d.ts"] AUTO_GENERATED;
               await write build_js ["index.mjs"] AUTO_GENERATED;
               await write build_js ["all.mjs"] AUTO_GENERATED;
               write build_js ["all.d.ts"] AUTO_GENERATED)) as Htail.
    { repeat (apply writes_within_bind; [|intros _]);
        (eapply writes_within_weaken; [|apply writes_within_write]);
        intros q ->; apply list_elem_of_fmap; eexists; (split; [reflexivity|]);
        by apply (bool_decide_unpack _). }
    destruct (Htail _ _ _ Hrest) as [_ Hkeep].
    destruct (icon_dirs_loop _ _ _ _ _ _ _ Hnd Hloop icon Hin) as (Hjs & Hmjs & Hdts).
    unfold headers in Hhead.
    apply elem_of_cons in Hhead as [[= -> ->] | Hhead];
      [|apply elem_of_cons in Hhead as [[= -> ->] | [= -> ->]%list_elem_of_singleton]].
    + rewrite Hkeep; [done|]. by apply Hdisj', (Hp _ "common"), (bool_decide_unpack _).
    + rewrite Hkeep; [done|]. by apply Hdisj', (Hp _ "module"), (bool_decide_unpack _).
    + rewrite Hkeep; [done|]. by apply Hdisj', (Hp _ "dts"), (bool_decide_unpack _).
  - apply bind_Ok in Hrun as ([] & x0 & _ & Hrun).
    apply bind_Ok in Hrun as ([] & x1 & _ & Hrun).
    apply bind_Ok in Hrun as ([] & x2 & _ & Hrun).
    apply bind_Ok in Hrun as ([] & y & Hloop & Hrest).
    destruct (Hbanner _ _ _ Hrest) as [_ Hkeep'].
    destruct (icon_dirs_loop _ _ _ _ _ _ _ Hnd Hloop icon Hin) as (Hjs & Hmjs & Hdts).
    unfold headers in Hhead.
    apply elem_of_cons in Hhead as [[= -> ->] | Hhead];
      [|apply elem_of_cons in Hhead as [[= -> ->] | [= -> ->]%list_elem_of_singleton]].
    + rewrite Hkeep'; [done|]. by apply Hdisj', (Hp _ "common"), (bool_decide_unpack _).
    + rewrite Hkeep'; [done|]. by apply Hdisj', (Hp _ "module"), (bool_decide_unpack _).
    + rewrite Hkeep'; [done|]. by apply Hdisj', (Hp _ "dts"), (bool_decide_unpack _).
Qed.

Lemma lookup_content d q str :
  is_Some (mem_files d !! q) → content d q = str → mem_files d !! q = Some str.
Proof. unfold content. intros [s ->]. simpl. by intros ->. Qed.

Variables (icons : list IconSetDescriptor) (rev : revision).

(** X4.  After a build that completes, each of the three files of every
    icon set holds the first lines that [dirInit] gives it, followed by one
    row for each icon file that [glob] found and the loop did not skip, in
    the order of [glob], computed from what the icon file held when the
    build started; nothing of an earlier build is left in it.  (The paths
    the script writes to are pairwise distinct, and no icon file is among
    them.) *)
Theorem icon_modules_after_build (d d' : MemFs) :
  NoDup (outputs rev icons) →
  (∀ icon f, icon ∈ icons → f ∈ globbed d icon → f ∉ outputs rev icons) →
  main icons rev d = Done d' →
  ∀ icon out type header,
    icon ∈ icons → (out, type) ∈ rowFiles → (out, header) ∈ headers rev →
    mem_files d' !! iconFile rev icon out =
    Some (header +:+ rowsOf rev icon type d (emitted icon (globbed d icon) ∅)).
Proof.
  intros Hnd Hsrc Hmain icon out type header Hin Hout Hhead. unfold main in Hmain.
  destruct (build icons rev d) as [[[] d0]|e] eqn:Hbuild; [|done].
  injection Hmain as ->. unfold build in Hbuild.
  apply bind_Ok in Hbuild as ([] & d1 & Hinit & Hbuild).
  apply bind_Ok in Hbuild as ([] & d2 & Hlic & Hbuild).
  apply bind_Ok in Hbuild as ([] & d3 & Hman & Hbuild).
  apply bind_Ok in Hbuild as ([] & d4 & Hidx & Hloop).
  unfold outputs in Hnd, Hsrc.
  set (licence := path_resolve [rootDir; "LICENSE"]) in *.
  set (manifest := (λ f, path_resolve [manifestDir rev; f]) <$>
         ["iconsManifest.mjs"; "iconsManifest.js"; "iconsManifest.d.ts"]) in *.
  set (inits := distFile rev <$> match rev with
                                 | build_js => initFiles
                                 | part_000 => ".gitignore" :: initFiles
                                 end) in *.
  apply NoDup_cons in Hnd as [Hnl Hnd].
  apply NoDup_app in Hnd as (_ & Hnm & Hnd).
  apply NoDup_app in Hnd as (_ & Hni & Hpaths).
  assert (∀ q, q ∈ distFile rev <$> initFiles → q ∈ inits) as Hinits.
  { intros q Hq. unfold inits. destruct rev; [done|]. rewrite fmap_cons. by right. }
  assert (∀ b, b ∈ barrels rev → b ∈ distFile rev <$> initFiles) as Hbarrels.
  { intros b [-> | ->%list_elem_of_singleton]%elem_of_cons;
      apply list_elem_of_fmap; eexists; (split; [reflexivity|]);
      by apply (bool_decide_unpack _). }
  destruct (writes_within_dirInit icons rev _ _ _ Hinit) as [Hg1 Hk1].
  fold inits in Hk1.
  destruct (confined_writeLicense icons _ _ _ Hlic) as (_ & Hg2 & Hk2).
  fold licence in Hk2.
  destruct (confined_writeIconsManifest icons rev _ _ _ Hman) as (_ & Hg3 & Hk3).
  fold manifest in Hk3.
  assert (mem_glob d4 = mem_glob d3 ∧
          ∀ q, q ∉ inits → mem_files d4 !! q = mem_files d3 !! q) as [Hg4 Hk4].
  { destruct rev; [|by injection Hidx as <-].
    destruct (confined_writeIndexFile _ _ _ _ Hidx) as (_ & ? & Hk).
    split; [done|]. intros q Hq. apply Hk. intros Hi. apply Hq, Hinits.
    apply list_elem_of_fmap in Hi as (f & -> & Hf).
    apply list_elem_of_fmap. exists f. split; [done|].
    apply elem_of_cons in Hf as [-> | ->%list_elem_of_singleton];
      by apply (bool_decide_unpack _). }
  assert (mem_glob d4 = mem_glob d) as Hg by congruence.
  assert (∀ q, q ≠ licence → q ∉ manifest → q ∉ inits →
               mem_files d4 !! q = mem_files d1 !! q) as Hk.
  { intros q ???. by rewrite Hk4, Hk3, Hk2. }
  assert (∀ q, q ∉ licence :: manifest ++ inits ++ (icons ≫= iconFiles rev) →
               mem_files d4 !! q = mem_files d !! q) as Hkd.
  { intros q Hq. apply not_elem_of_cons in Hq as [? Hq].
    apply not_elem_of_app in Hq as [? Hq]. pose proof Hq as Hq'.
    apply not_elem_of_app in Hq as [? ?]. rewrite Hk by done. by apply Hk1. }
  set (p := iconFile rev icon out).
  assert (p ∈ icons ≫= iconFiles rev) as Hp.
  { eapply elem_of_all_iconFiles; [done|]. by eapply elem_of_iconFiles. }
  assert (p ≠ licence) as Hpl.
  { intros Heq. apply Hnl. rewrite <- Heq, !elem_of_app. by do 2 right. }
  assert (p ∉ manifest) as Hpm.
  { intros Hm. apply (Hnm _ Hm), elem_of_app. by right. }
  assert (p ∉ inits) as Hpi.
  { intros Hi. by apply (Hni _ Hi). }
  assert (mem_files d4 !! p = Some header) as H4.
  { rewrite Hk by done.
    apply (dirInit_headers rev icons d d1 Hpaths) with (3:=Hin) (4:=Hhead); [|done].
    intros q Hq. by apply Hni, Hinits. }
  assert (∀ b, b ∈ barrels rev → b ∉ icons ≫= iconFiles rev) as Hbar.
  { intros b Hb. by apply Hni, Hinits, Hbarrels. }
  assert (∀ i f, i ∈ icons → f ∈ globbed d4 i →
            f ∉ barrels rev ++ (icons ≫= iconFiles rev)) as Hsrc4.
  { intros i f Hi Hf. rewrite (globbed_glob d d4 i Hg) in Hf.
    pose proof (Hsrc i f Hi Hf) as Hno.
    intros [Hb | Hpp]%elem_of_app; apply Hno; right; apply elem_of_app; right;
      apply elem_of_app; [left; by apply Hinits, Hbarrels | by right]. }
  pose proof (modules_loop rev icons d4 d' Hpaths Hbar Hsrc4 Hloop
                icon out type Hin Hout) as Hend.
  fold p in Hend. rewrite (globbed_glob d d4 icon Hg) in Hend.
  rewrite (rowsOf_ext rev icon type d d4) in Hend.
  2:{ intros f Hf%emitted_elem_of. unfold content.
      by rewrite (Hkd f (Hsrc icon f Hin Hf)). }
  unfold content at 2 in Hend. rewrite H4 in Hend. cbn [default] in Hend.
  apply lookup_content; [|done].
  assert (append_only (for_of icons (writeIconModule rev))) as Ha.
  { apply append_only_for_of. intros ?. apply append_only_writeIconModule. }
  destruct (Ha _ _ _ Hloop p header H4) as [more Hmore]. eauto.
Qed.
End IconSets.

(** ** The typings of the manifest *)

(** X12.  [writeIconsManifest] ends by copying [src/iconsManifest.d.ts]
    beside the two manifest files: when it fulfils, the copy holds what the
    source held when it started, and when the source is missing it
    rejects.  (The source is not one of the two manifest files.) *)
Theorem manifest_typings_copied `{NodeEnv} (icons : list IconSetDescriptor)
    (rev : revision) (d : MemFs) :
  "src/iconsManifest.d.ts" ∉
    [path_resolve [manifestDir rev; "iconsManifest.mjs"];
     path_resolve [manifestDir rev; "iconsManifest.js"]] →
  (∀ d', writeIconsManifest icons rev d = Ok ((), d') →
     ∃ txt, mem_files d !! "src/iconsManifest.d.ts" = Some txt ∧
            mem_files d' !! path_resolve [manifestDir rev; "iconsManifest.d.ts"]
              = Some txt) ∧
  (mem_files d !! "src/iconsManifest.d.ts" = None →
     ∃ e, writeIconsManifest icons rev d = Err e).
Proof.
  intros Hsrc. apply not_elem_of_cons in Hsrc as [Hmjs Hsrc].
  apply not_elem_of_cons in Hsrc as [Hjs _].
  assert (∀ x y, (await writeFile (path_resolve [manifestDir rev; "iconsManifest.mjs"])
                          ("export const IconsManifest = " +:+
                             JSON_stringify_indent (writeObj icons));
                  writeFile (path_resolve [manifestDir rev; "iconsManifest.js"])
                          ("module.exports.IconsManifest = " +:+
                             JSON_stringify_indent (writeObj icons))) x = Ok ((), y) →
            mem_files y !! "src/iconsManifest.d.ts"
            = mem_files x !! "src/iconsManifest.d.ts") as Hkeep.
  { intros x y ([] & x1 & H1 & H2)%bind_Ok.
    destruct (confined_writeFile _ _ _ _ _ H1) as (_ & _ & Hf1).
    destruct (confined_writeFile _ _ _ _ _ H2) as (_ & _ & Hf2).
    by rewrite Hf2, Hf1. }
  unfold writeIconsManifest. cbv zeta. split.
  - intros d' ([] & d1 & H1 & Hrest)%bind_Ok.
    apply bind_Ok in Hrest as ([] & d2 & H2 & H3).
    assert (mem_files d2 !! "src/iconsManifest.d.ts"
            = mem_files d !! "src/iconsManifest.d.ts") as Hsame.
    { apply Hkeep. apply bind_Ok. by exists (), d1. }
    unfold copyFile, effect in H3. simpl in H3.
    destruct (Mem.copyFile _ _ d2) as [d3|] eqn:Hcopy; [|done].
    revert H3. intros [= <-]. unfold Mem.copyFile in Hcopy.
    destruct (Mem.readFile _ d2) as [txt|] eqn:Hread; [|done].
    apply mem_readFile_Ok in Hread. apply mem_writeFile_Ok in Hcopy as (_ & _ & Hf).
    exists txt. split; [by rewrite <- Hsame|]. rewrite Hf. apply lookup_insert_eq.
  - intros Hnone. unfold bind at 1.
    destruct (writeFile _ _ d) as [[[] d1]|e1] eqn:H1; [|by eexists].
    unfold bind at 1.
    destruct (writeFile _ _ d1) as [[[] d2]|e2] eqn:H2; [|by eexists].
    assert (mem_files d2 !! "src/iconsManifest.d.ts" = None) as Hnone2.
    { rewrite <- Hnone. apply Hkeep. apply bind_Ok. by exists (), d1. }
    unfold copyFile, effect. simpl. unfold Mem.copyFile, Mem.readFile.
    rewrite Hnone2. by eexists.
Qed.

(** ** The further properties on the sample checkout *)

Lemma icon_modules_after_build_witness :
  ∃ d', main [Disks.io; Disks.plain] build_js Disks.checkout = Done d' ∧
        mem_files d' !! iconFile build_js Disks.plain "index.d.ts" =
        Some (("import { IconData, IconType } from '../iconBase'" +:+ LF +:+ AUTO_GENERATED) +:+
              rowsOf build_js Disks.plain "dts" Disks.checkout
                (emitted Disks.plain (globbed Disks.checkout Disks.plain) ∅)).
Proof.
  assert (∃ d', main [Disks.io; Disks.plain] build_js Disks.checkout = Done d')
    as [d' Hrun] by (eexists; vm_compute; reflexivity).
  exists d'. split; [done|].
  apply (icon_modules_after_build [Disks.io; Disks.plain] build_js Disks.checkout d').
  - apply (bool_decide_unpack _). vm_compute. exact I.
  - assert (Forall (λ icon, Forall (λ f, f ∉ outputs build_js [Disks.io; Disks.plain])
                              (globbed Disks.checkout icon))
              [Disks.io; Disks.plain]) as HF
      by (apply (bool_decide_unpack _); vm_compute; exact I).
    intros icon f Hi Hf. rewrite Forall_forall in HF. specialize (HF icon Hi).
    rewrite Forall_forall in HF. by apply HF.
  - exact Hrun.
  - right. left.
  - do 2 right. left.
  - do 2 right. left.
Defined.


Lemma writeIconModule_appends_only_witness :
  ∃ d0 d',
    dirInit [Disks.io] build_js Disks.checkout = Ok ((), d0) ∧
    writeIconModule build_js Disks.io d0 = Ok ((), d') ∧
    mem_dirs d' = mem_dirs d0 ∧
    (∀ p str, mem_files d0 !! p = Some str →
       ∃ more, mem_files d' !! p = Some (str +:+ more)) ∧
    (∀ q, q ∉ distFile build_js "all.mjs" :: distFile build_js "all.d.ts" ::
                ((λ r, iconFile build_js Disks.io r.1) <$> rowFiles) →
       mem_files d' !! q = mem_files d0 !! q).
Proof.
  assert (∃ d0 d',
            dirInit [Disks.io] build_js Disks.checkout = Ok ((), d0) ∧
            writeIconModule build_js Disks.io d0 = Ok ((), d'))
    as (d0 & d' & Hinit & Hrun)
    by (eexists _, _; split; [vm_compute; reflexivity | vm_compute; reflexivity]).
  exists d0, d'. split_and!; [done..| | |];
    by apply (writeIconModule_appends_only build_js Disks.io d0 d').
Defined.

Lemma barrels_after_build_witness :
  ∃ d', main [Disks.io; Disks.plain] part_000 Disks.checkout = Done d' ∧
        mem_files d' !! distFile part_000 "all.d.ts" =
        Some (AUTO_GENERATED +:+
              ("export * from './io';" +:+ LF) +:+ ("export * from './pl';" +:+ LF)).
Proof.
  assert (∃ d', main [Disks.io; Disks.plain] part_000 Disks.checkout = Done d')
    as [d' Hrun] by (eexists; vm_compute; reflexivity).
  exists d'. split; [done|].
  rewrite (barrels_after_build [Disks.io; Disks.plain] part_000 Disks.checkout d')
    with (b := "all.d.ts"); [done | | | | exact Hrun | right; left].
  - apply (bool_decide_unpack _). vm_compute. exact I.
  - apply Forall_forall. apply (bool_decide_unpack _). vm_compute. exact I.
  - assert (Forall (λ icon, Forall (λ b,
                distFile part_000 b ∉ (λ r, iconFile part_000 icon r.1) <$> rowFiles)
              ["all.mjs"; "all.d.ts"]) [Disks.io; Disks.plain]) as HF
      by (apply (bool_decide_unpack _); vm_compute; exact I).
    intros icon b Hi Hb. rewrite Forall_forall in HF. specialize (HF icon Hi).
    rewrite Forall_forall in HF. by apply HF.
Defined.

Lemma dirInit_resets_aggregates_witness :
  ∃ d', dirInit [Disks.io] part_000 Disks.checkout = Ok ((), d') ∧
        ∀ f, f ∈ initFiles → mem_files d' !! distFile part_000 f = Some AUTO_GENERATED.
Proof.
  assert (∃ d', dirInit [Disks.io] part_000 Disks.checkout = Ok ((), d'))
    as [d' Hrun] by (eexists; vm_compute; reflexivity).
  exists d'. split; [done|].
  apply (dirInit_resets_aggregates part_000 [Disks.io] Disks.checkout d'); [|exact Hrun].
  apply (bool_decide_unpack _). vm_compute. exact I.
Defined.

Lemma writeLicense_content_witness :
  ∃ d' header,
    writeLicense [Disks.io; Disks.plain] Disks.checkout = Ok ((), d') ∧
    mem_files Disks.checkout !! path_resolve [rootDir; "LICENSE_HEADER"] = Some header ∧
    mem_files d' !! path_resolve [rootDir; "LICENSE_HEADER"] = Some header ∧
    mem_files d' !! path_resolve [rootDir; "LICENSE"]
      = Some (header +:+ iconLicenses [Disks.io; Disks.plain]) ∧
    writeLicense [Disks.io; Disks.plain] d' = Ok ((), d').
Proof.
  assert (∃ d', writeLicense [Disks.io; Disks.plain] Disks.checkout = Ok ((), d'))
    as [d' Hrun] by (eexists; vm_compute; reflexivity).
  destruct (writeLicense_content [Disks.io; Disks.plain] Disks.checkout d')
    as (header & Hspec); [|exact Hrun|exists d', header; split; [exact Hrun | exact Hspec]].
  apply (bool_decide_unpack _). vm_compute. exact I.
Defined.

Lemma writeIndexFile_same_text_witness :
  ∃ d0 d',
    dirInit [] build_js Disks.checkout = Ok ((), d0) ∧
    writeIndexFile build_js d0 = Ok ((), d') ∧
    ∀ f, f ∈ ["index.mjs"; "index.d.ts"] →
      content d' (distFile build_js f) =
      content d0 (distFile build_js f) +:+ manifestExport +:+ imports.
Proof.
  assert (∃ d0 d',
            dirInit [] build_js Disks.checkout = Ok ((), d0) ∧
            writeIndexFile build_js d0 = Ok ((), d'))
    as (d0 & d' & Hinit & Hrun)
    by (eexists _, _; split; [vm_compute; reflexivity | vm_compute; reflexivity]).
  exists d0, d'. split_and!; [done..|].
  apply (writeIndexFile_same_text d0 d'); [|exact Hrun].
  apply (bool_decide_unpack _). vm_compute. exact I.
Defined.

Lemma main_can_be_repeated_witness :
  ∃ d', main [Disks.io; Disks.plain] build_js Disks.checkout = Done d' ∧
        grows Disks.checkout d' ∧
        ∀ z, grows d' z → mem_glob z = mem_glob d' →
          ∃ z', main [Disks.io; Disks.plain] build_js z = Done z'.
Proof.
  assert (∃ d', main [Disks.io; Disks.plain] build_js Disks.checkout = Done d')
    as [d' Hrun] by (eexists; vm_compute; reflexivity).
  exists d'. split; [done|].
  by apply (main_can_be_repeated [Disks.io; Disks.plain] build_js Disks.checkout d').
Defined.

Lemma manifest_typings_copied_witness :
  ∃ d' txt,
    writeIconsManifest [Disks.io] part_000 (Disks.built []) = Ok ((), d') ∧
    mem_files (Disks.built []) !! "src/iconsManifest.d.ts" = Some txt ∧
    mem_files d' !! path_resolve [manifestDir part_000; "iconsManifest.d.ts"] = Some txt.
Proof.
  assert (∃ d', writeIconsManifest [Disks.io] part_000 (Disks.built []) = Ok ((), d'))
    as [d' Hrun] by (eexists; vm_compute; reflexivity).
  destruct (manifest_typings_copied [Disks.io] part_000 (Disks.built [])) as [Hok _].
  { apply (bool_decide_unpack _). vm_compute. exact I. }
  destruct (Hok d' Hrun) as (txt & Hsrc & Hcopy). exists d', txt.
  split; [exact Hrun | split; [exact Hsrc | exact Hcopy]].
Defined.
